(** * PyNDN2: the pending interest table and the threadsafe face

    A shallow embedding of
    - [pyndn/impl/pending_interest_table.py] (class [PendingInterestTable]
      and its inner class [Entry]), and
    - [pyndn/threadsafe_face.py] (class [ThreadsafeFace]),
    together with the properties of these two classes.

    Python objects live in a heap and are named by references; a method is a
    computation in a state-and-exception monad whose state survives a raised
    exception, as it does in Python. *)

From Stdlib Require Import ZArith QArith.
From stdpp Require Import gmap strings list.

Local Open Scope Z_scope.

(** ** Python computations *)

Module Py.

(** The exceptions that occur in the two classes. [OtherError] stands for
    whatever a user callback raises. *)
Inductive PyExn : Type :=
| TypeError
| IndexError
| ValueError
| AttributeError
| OtherError (tag : nat).

Inductive outcome (A : Type) : Type :=
| Returns (a : A)
| Raises (e : PyExn).
Arguments Returns {A} a.
Arguments Raises {A} e.

(** A computation over a state [S]: the state is threaded through, and it
    is kept when an exception is raised. *)
Definition M (S A : Type) : Type := S -> S * outcome A.

Definition ret {S A} (a : A) : M S A := fun s => (s, Returns a).

Definition raise {S A} (e : PyExn) : M S A := fun s => (s, Raises e).

Definition bind {S A B} (c : M S A) (k : A -> M S B) : M S B :=
  fun s =>
    match c s with
    | (s', Returns a) => k a s'
    | (s', Raises e) => (s', Raises e)
    end.

Definition gets {S A} (f : S -> A) : M S A := fun s => (s, Returns (f s)).

Definition modify {S} (f : S -> S) : M S unit := fun s => (f s, Returns tt).

(** [try: c  except: h] with a bare [except], which catches everything. *)
Definition try_except {S A} (c : M S A) (h : PyExn -> M S A) : M S A :=
  fun s =>
    match c s with
    | (s', Returns a) => (s', Returns a)
    | (s', Raises e) => h e s'
    end.

(** [try: c  finally: f]. The [finally] block always runs; afterwards the
    outcome of [c] stands, unless [f] itself raises. *)
Definition try_finally {S A} (c : M S A) (f : M S unit) : M S A :=
  fun s =>
    match c s with
    | (s', o) =>
        match f s' with
        | (s'', Returns _) => (s'', o)
        | (s'', Raises e) => (s'', Raises e)
        end
    end.

(** Python values that reach the [+] operator in this code. *)
Inductive PyValue : Type :=
| PyInt (n : Z)
| PyStr (s : string).

(** [a + b]: defined on two ints and on two strs; a str and an int raise
    [TypeError]. *)
Definition py_add {S} (a b : PyValue) : M S PyValue :=
  match a, b with
  | PyInt x, PyInt y => ret (PyInt (x + y))
  | PyStr x, PyStr y => ret (PyStr (String.append x y))
  | _, _ => raise TypeError
  end.

End Py.

Export Py.

Declare Scope py_scope.
Delimit Scope py_scope with py.
Notation "x <- c ;; k" := (bind c (fun x => k))
(at level 100, c at next level, right associativity) : py_scope.
Notation "c ;;; k" := (bind c (fun _ => k))
(at level 100, right associativity) : py_scope.
Local Open Scope py_scope.

(** ** pyndn/impl/pending_interest_table.py *)

Module PendingInterestTable.

(** [Interest] and [Name] are classes of the library outside this module.
    [Callback] is the type of the function objects given as [onData] and
    [onTimeout], and [World] the state of the application, which they act
    on. *)
Class Types : Type := {
  Interest : Type;
  Name : Type;
  Callback : Type;
  World : Type
}.

Section Table.

Context `{Ty : Types}.

(** class Entry *)
Record Entry : Type := mkEntry {
  _pendingInterestId : Z;
  _interest : Interest;
  _onData : Callback;
  _onTimeout : option Callback;
  _isRemoved : bool
}.

(** A reference to an [Entry] object. Two references are the same object
    exactly when they are equal. *)
Definition ref : Type := nat.

Inductive LogRecord : Type :=
| LogException (msg : string) (e : PyExn)
| LogDebug (msg : PyValue).

(** The state: the heap of [Entry] objects, the list [self._table] of the
    one table, the records written through [logging], and the state of the
    application that the callbacks act on. *)
Record Machine : Type := mkMachine {
  heap : gmap ref Entry;
  _table : list ref;
  logged : list LogRecord;
  world : World
}.

(** [matchesName] is [Interest.matchesName]. *)
Class InterestOps : Type := {
  matchesName : Interest -> Name -> bool
}.

(** What calling the function object [f] with an interest does. *)
Class CallbackOps : Type := {
  call : Callback -> Interest -> M Machine unit
}.

Context `{IOps : !InterestOps} `{COps : !CallbackOps}.

Definition set_heap (h : gmap ref Entry) (m : Machine) : Machine :=
  mkMachine h (_table m) (logged m) (world m).
Definition set_table (t : list ref) (m : Machine) : Machine :=
  mkMachine (heap m) t (logged m) (world m).
Definition add_log (r : LogRecord) (m : Machine) : Machine :=
  mkMachine (heap m) (_table m) (logged m ++ [r]) (world m).

(** Reading a field of the object behind a reference. A reference that
    names no object does not occur in Python; the model raises
    [AttributeError] there. *)
Definition field {A} (f : Entry -> A) (self : ref) : M Machine A :=
  fun m =>
    match heap m !! self with
    | Some e => (m, Returns (f e))
    | None => (m, Raises AttributeError)
    end.

Definition getPendingInterestId (self : ref) : M Machine Z :=
  field _pendingInterestId self.
Definition getInterest (self : ref) : M Machine Interest :=
  field _interest self.
Definition getOnData (self : ref) : M Machine Callback :=
  field _onData self.
Definition getIsRemoved (self : ref) : M Machine bool :=
  field _isRemoved self.

Definition mark (e : Entry) : Entry :=
  mkEntry (_pendingInterestId e) (_interest e) (_onData e) (_onTimeout e)
    true.

(** self._isRemoved = True *)
Definition setIsRemoved (self : ref) : M Machine unit :=
  modify (fun m => set_heap (alter mark self (heap m)) m).

Definition logging_exception (msg : string) (e : PyExn) : M Machine unit :=
  modify (add_log (LogException msg e)).
Definition logging_debug (msg : PyValue) : M Machine unit :=
  modify (add_log (LogDebug msg)).

(** Entry.callTimeout *)
Definition callTimeout (self : ref) : M Machine unit :=
  onTimeout <- field _onTimeout self ;;
  match onTimeout with
  | Some f =>
      try_except
        (interest <- field _interest self ;; call f interest)
        (fun e => logging_exception "Error in onTimeout"%string e)
  | None => ret tt
  end.

(** self._table[i] *)
Definition table_get (i : nat) : M Machine ref :=
  fun m =>
    match _table m !! i with
    | Some p => (m, Returns p)
    | None => (m, Raises IndexError)
    end.

(** self._table.pop(i) and del self._table[i] *)
Definition table_pop (i : nat) : M Machine unit :=
  fun m =>
    match _table m !! i with
    | Some _ => (set_table (delete i (_table m)) m, Returns tt)
    | None => (m, Raises IndexError)
    end.

(** The first index of [x] in [l], as [list.index] finds it. *)
Fixpoint index_of (x : ref) (l : list ref) : option nat :=
  match l with
  | [] => None
  | y :: l' => if decide (y = x) then Some 0%nat else S <$> index_of x l'
  end.

(** self._table.index(x) *)
Definition table_index (x : ref) : M Machine nat :=
  fun m =>
    match index_of x (_table m) with
    | Some i => (m, Returns i)
    | None => (m, Raises ValueError)
    end.

(** PendingInterestTable.add: a new object is allocated at a reference not
    yet in use. *)
Definition add (pendingInterestId : Z) (interestCopy : Interest)
    (onData : Callback) (onTimeout : option Callback) : M Machine ref :=
  fun m =>
    let entry := fresh (dom (heap m)) in
    let e := mkEntry pendingInterestId interestCopy onData onTimeout false in
    (mkMachine (<[entry := e]> (heap m)) (_table m ++ [entry]) (logged m)
       (world m),
     Returns entry).

(** The loop of extractEntriesForExpressedInterest. The counter [n] is
    [i + 1], so [while i >= 0] is [n] not being zero; [entries] is the
    content of the caller's list. *)
Fixpoint extract_loop (name : Name) (n : nat) (entries : list ref)
    : M Machine (list ref) :=
  match n with
  | O => ret entries
  | S i =>
      pendingInterest <- table_get i ;;
      interest <- getInterest pendingInterest ;;
      if matchesName interest name then
        table_pop i ;;;
        setIsRemoved pendingInterest ;;;
        extract_loop name i (entries ++ [pendingInterest])
      else
        extract_loop name i entries
  end.

(** PendingInterestTable.extractEntriesForExpressedInterest: returns the
    content of the list [entries] after the call. *)
Definition extractEntriesForExpressedInterest (name : Name)
    (entries : list ref) : M Machine (list ref) :=
  len <- gets (fun m => length (_table m)) ;;
  extract_loop name len entries.

(** The loop of removePendingInterest, with [n] being [i + 1]; it returns
    [count]. *)
Fixpoint remove_loop (pendingInterestId : Z) (n : nat) (count : Z)
    : M Machine Z :=
  match n with
  | O => ret count
  | S i =>
      p <- table_get i ;;
      id <- getPendingInterestId p ;;
      if Z.eqb id pendingInterestId then
        p' <- table_get i ;;
        setIsRemoved p' ;;;
        table_pop i ;;;
        remove_loop pendingInterestId i (count + 1)
      else
        remove_loop pendingInterestId i count
  end.

(** PendingInterestTable.removePendingInterest *)
Definition removePendingInterest (pendingInterestId : Z) : M Machine unit :=
  len <- gets (fun m => length (_table m)) ;;
  count <- remove_loop pendingInterestId len 0 ;;
  if Z.eqb count 0 then
    msg <- py_add
             (PyStr
                "removePendingInterest: Didn't find pendingInterestId "%string)
             (PyInt pendingInterestId) ;;
    logging_debug msg
  else ret tt.

(** PendingInterestTable.removeEntry *)
Definition removeEntry (pendingInterest : ref) : M Machine bool :=
  removed <- getIsRemoved pendingInterest ;;
  if (removed : bool) then ret false
  else
    r <- try_except
           (index <- table_index pendingInterest ;; ret (Some index))
           (fun e => match e with
                     | ValueError => ret None
                     | _ => raise e
                     end) ;;
    match r with
    | None => ret false
    | Some index =>
        setIsRemoved pendingInterest ;;;
        table_pop index ;;;
        ret true
    end.

(** *** Sequences of table operations *)

(** A table that has just been constructed, before any [Entry] exists. *)
Definition initial (w : World) : Machine := mkMachine ∅ [] [] w.

Inductive Op : Type :=
| OpAdd (pendingInterestId : Z) (interestCopy : Interest)
    (onData : Callback) (onTimeout : option Callback)
| OpExtract (name : Name) (entries : list ref)
| OpRemovePendingInterest (pendingInterestId : Z)
| OpRemoveEntry (pendingInterest : ref).

(** The state an operation leaves, whether it returns or raises. *)
Definition exec (op : Op) (m : Machine) : Machine :=
  match op with
  | OpAdd id i d t => fst (add id i d t m)
  | OpExtract name entries =>
      fst (extractEntriesForExpressedInterest name entries m)
  | OpRemovePendingInterest id => fst (removePendingInterest id m)
  | OpRemoveEntry p => fst (removeEntry p m)
  end.

Definition run (ops : list Op) (m : Machine) : Machine :=
  foldl (fun m op => exec op m) m ops.

(** A sequence of [add] calls, each given as its four arguments. *)
Definition AddCall : Type := Z * Interest * Callback * option Callback.

Definition op_of_add (c : AddCall) : Op :=
  match c with (id, i, d, t) => OpAdd id i d t end.

(** The object that [add] creates for a call. *)
Definition entry_of (c : AddCall) : Entry :=
  match c with (id, i, d, t) => mkEntry id i d t false end.

Definition run_adds (calls : list AddCall) (m : Machine) : Machine :=
  run (map op_of_add calls) m.

(** *** Predicates used in the statements *)

(** The entry behind [p] has an interest that matches [name]. *)
Definition matchesb (h : gmap ref Entry) (name : Name) (p : ref) : bool :=
  match h !! p with
  | Some e => matchesName (_interest e) name
  | None => false
  end.

(** The entry behind [p] has the pending interest id [id]. *)
Definition has_id (h : gmap ref Entry) (id : Z) (p : ref) : bool :=
  match h !! p with
  | Some e => Z.eqb (_pendingInterestId e) id
  | None => false
  end.

(** The value of the isRemoved flag of the entry behind [p]. *)
Definition isRemoved (m : Machine) (p : ref) : option bool :=
  _isRemoved <$> heap m !! p.

(** The heap after [setIsRemoved] on each entry of [R], the last first. *)
Definition marks (R : list ref) (h : gmap ref Entry) : gmap ref Entry :=
  foldr (alter mark) h R.

(** Every entry of the table is an object of the heap. *)
Definition allocated (m : Machine) : Prop :=
  forall p, p ∈ _table m -> is_Some (heap m !! p).

(** The table invariant: no entry is in the table twice, the entries in
    the table are not marked removed, and the entries that are no longer
    in the table are marked removed. *)
Definition Inv (m : Machine) : Prop :=
  NoDup (_table m) /\
  (forall p, p ∈ _table m -> isRemoved m p = Some false) /\
  (forall p, is_Some (heap m !! p) -> p ∉ _table m ->
             isRemoved m p = Some true).

End Table.

(** ** The table on concrete interests

    Names are lists of components, an interest is the name it asks for, and
    it matches the names that it is a prefix of. A callback is a number: an
    even one returns, an odd one raises; both leave a note of the call in
    the world. *)

Fixpoint is_prefix (i n : list string) : bool :=
  match i, n with
  | [], _ => true
  | _ :: _, [] => false
  | a :: i', b :: n' => String.eqb a b && is_prefix i' n'
  end.

#[export] Instance demo_types : Types := {|
  Interest := list string;
  Name := list string;
  Callback := nat;
  World := list (nat * list string)
|}.

#[export] Instance demo_interest : InterestOps := {|
  matchesName := is_prefix
|}.

Definition demo_call (f : nat) (i : list string) : M Machine unit :=
  fun m =>
    let m' := mkMachine (heap m) (_table m) (logged m) (world m ++ [(f, i)]) in
    if Nat.even f then (m', Returns tt) else (m', Raises (OtherError f)).

#[export] Instance demo_callback : CallbackOps := {|
  call := demo_call
|}.

(** Three entries with the ids 1, 2, 3 and the names /a/b, /a/c, /a/b/d. *)
Definition demo_ops : list Op :=
  [OpAdd 1 ["a"; "b"]%string 0%nat None;
   OpAdd 2 ["a"; "c"]%string 0%nat (Some 2%nat);
   OpAdd 3 ["a"; "b"; "d"]%string 0%nat (Some 3%nat)].

Definition demo_machine : Machine := run demo_ops (initial []).

Definition demo_entry3 : Entry :=
  mkEntry 3 ["a"; "b"; "d"]%string 0%nat (Some 3%nat) false.

(** Callbacks that call back into the table: callback 2 cancels the
    pending interest with the id 2, callback 3 expresses its interest
    again, under the id 4; the others return. *)
Definition demo_call_reentrant (f : nat) (i : list string) : M Machine unit :=
  match f with
  | 2%nat => removePendingInterest 2
  | 3%nat => add 4 i 0%nat None ;;; ret tt
  | _ => ret tt
  end.

Definition demo_callback_reentrant : CallbackOps := {|
  call := demo_call_reentrant
|}.

Definition demo_entry2 : Entry :=
  mkEntry 2 ["a"; "c"]%string 0%nat (Some 2%nat) false.

End PendingInterestTable.

(** ** pyndn/threadsafe_face.py *)

Module ThreadsafeFace.

(** [Base] is the state that the base class [Face] keeps and works on: its
    node with the pending interest table, the registered prefix table and
    the interest filter table, the transport, and the application behind
    the callbacks. [Test] is the type of the function objects given to
    [stopWhen], [Arg] the type of the values that the methods hand on
    unread (interests, names, callbacks, flags, encodings). *)
Class FaceTypes : Type := {
  Base : Type;
  Test : Type;
  Arg : Type
}.

(** What [self._loop] holds: the event loop given to the constructor, or
    [None]. *)
Inductive Reference : Type :=
| PyNone
| PyLoop.

Section Face.

Context `{FTy : FaceTypes}.

(** The methods of the base class and the application code that the
    threadsafe face calls. They are taken to act on [Base] alone: a test
    or a [processEvents] that itself calls a method of the face or of the
    loop is outside this description. *)
Class BaseOps : Type := {
  (** Face.__init__(arg1, arg2) *)
  Face_init : Arg -> Arg -> Base -> Base * outcome unit;
  (** Face.shutdown() *)
  Face_shutdown : Base -> Base * outcome unit;
  (** Face.processEvents() *)
  Face_processEvents : Base -> Base * outcome unit;
  (** test(), for a test given to stopWhen: whether the result is true *)
  call_test : Test -> Base -> Base * outcome bool
}.

Context `{BOps : !BaseOps}.

(** The function objects that the face hands to the loop. *)
Inductive Callable : Type :=
| StopWhenCallback
| ProcessEventsCallback
| ExpressInterestHelper
| RegisterPrefixHelper
| SetInterestFilterHelper
| Face_removePendingInterest
| Face_removeRegisteredPrefix
| Face_unsetInterestFilter
| Face_putData
| Face_send
| Given (callback : Arg).

Inductive Value : Type :=
| VInt (n : Z)
| VArg (a : Arg).

(** The three ways of registering a call with the loop; the delay of
    [call_later] is in seconds. *)
Inductive Registration : Type :=
| call_soon
| call_later (delay : Q)
| call_soon_threadsafe.

(** A call registered with the loop. *)
Record Handle : Type := mkHandle {
  how : Registration;
  what : Callable;
  args : list Value
}.

(** The event loop object: the calls registered with it, the oldest first,
    and whether [stop] was called. *)
Record Loop : Type := mkLoop {
  scheduled : list Handle;
  stopped : bool
}.

(** The state: the fields [_loop] and [_stopWhenTest] of the face, the
    counter behind [self._node.getNextEntryId()], the event loop object and
    the state of the base class. *)
Record Face : Type := mkFace {
  _loop : Reference;
  _stopWhenTest : option Test;
  _lastEntryId : Z;
  loop : Loop;
  base : Base
}.

Definition set_loop_ref (r : Reference) (s : Face) : Face :=
  mkFace r (_stopWhenTest s) (_lastEntryId s) (loop s) (base s).
Definition set_stopWhenTest (t : option Test) (s : Face) : Face :=
  mkFace (_loop s) t (_lastEntryId s) (loop s) (base s).
Definition set_lastEntryId (n : Z) (s : Face) : Face :=
  mkFace (_loop s) (_stopWhenTest s) n (loop s) (base s).
Definition set_loop (l : Loop) (s : Face) : Face :=
  mkFace (_loop s) (_stopWhenTest s) (_lastEntryId s) l (base s).
Definition set_base (b : Base) (s : Face) : Face :=
  mkFace (_loop s) (_stopWhenTest s) (_lastEntryId s) (loop s) b.

(** A method of the base class, run on the [base] part of the state. *)
Definition on_base {A} (f : Base -> Base * outcome A) : M Face A :=
  fun s => match f (base s) with (b, o) => (set_base b s, o) end.

(** x == None and x != None *)
Definition is_None (r : Reference) : bool :=
  match r with PyNone => true | PyLoop => false end.

(** self._loop.m(...): the method [m] of the loop object is run when
    [self._loop] is the loop; on [None] the attribute lookup raises. *)
Definition on_loop (m : Loop -> Loop) : M Face unit :=
  fun s =>
    match _loop s with
    | PyLoop => (set_loop (m (loop s)) s, Returns tt)
    | PyNone => (s, Raises AttributeError)
    end.

Definition register (h : Handle) (l : Loop) : Loop :=
  mkLoop (scheduled l ++ [h]) (stopped l).

(** self._loop.call_soon(f), .call_later(d, f), .call_soon_threadsafe(f, *a),
    and self._loop.stop() *)
Definition loop_call_soon (f : Callable) : M Face unit :=
  on_loop (register (mkHandle call_soon f [])).
Definition loop_call_later (d : Q) (f : Callable) : M Face unit :=
  on_loop (register (mkHandle (call_later d) f [])).
Definition loop_call_soon_threadsafe (f : Callable) (a : list Value)
    : M Face unit :=
  on_loop (register (mkHandle call_soon_threadsafe f a)).
Definition loop_stop : M Face unit :=
  on_loop (fun l => mkLoop (scheduled l) true).

(** Modelled from the spec: [Node.getNextEntryId], which is not among the
    sources. The spec calls it a monotonic generator of unique ids, an
    atomic increment of a counter: it adds one to the counter and returns
    the new value. *)
Definition getNextEntryId : M Face Z :=
  fun s =>
    let n := _lastEntryId s + 1 in
    (set_lastEntryId n s, Returns n).

(** A local variable [l] of a method: the body runs on the state paired
    with the variable. *)
Definition with_local {S L A} (l : L) (c : M (S * L) A) : M S A :=
  fun s => match c (s, l) with ((s', _), o) => (s', o) end.
Definition outer {S L A} (c : M S A) : M (S * L) A :=
  fun sl => match c (fst sl) with (s', o) => ((s', snd sl), o) end.
Definition get_local {S L} : M (S * L) L :=
  fun sl => (sl, Returns (snd sl)).
Definition set_local {S L} (l : L) : M (S * L) unit :=
  fun sl => ((fst sl, l), Returns tt).

(** ThreadsafeFace.__init__ *)
Definition __init__ (loop_arg : Reference) (arg1 arg2 : Arg) : M Face unit :=
  on_base (Face_init arg1 arg2) ;;;
  modify (set_loop_ref loop_arg) ;;;
  modify (set_stopWhenTest None) ;;;
  loop_call_soon StopWhenCallback ;;;
  loop_call_soon ProcessEventsCallback.

(** ThreadsafeFace.expressInterest *)
Definition expressInterest (interestOrName arg2 arg3 arg4 arg5 : Arg)
    : M Face Z :=
  pendingInterestId <- getNextEntryId ;;
  loop_call_soon_threadsafe ExpressInterestHelper
    [VInt pendingInterestId; VArg interestOrName; VArg arg2; VArg arg3;
     VArg arg4; VArg arg5] ;;;
  ret pendingInterestId.

(** ThreadsafeFace.removePendingInterest *)
Definition removePendingInterest (pendingInterestId : Z) : M Face unit :=
  loop_call_soon_threadsafe Face_removePendingInterest
    [VInt pendingInterestId].

(** ThreadsafeFace.registerPrefix *)
Definition registerPrefix
    (prefix onInterest onRegisterFailed flags wireFormat : Arg) : M Face Z :=
  registeredPrefixId <- getNextEntryId ;;
  loop_call_soon_threadsafe RegisterPrefixHelper
    [VInt registeredPrefixId; VArg prefix; VArg onInterest;
     VArg onRegisterFailed; VArg flags; VArg wireFormat] ;;;
  ret registeredPrefixId.

(** ThreadsafeFace.removeRegisteredPrefix *)
Definition removeRegisteredPrefix (registeredPrefixId : Z) : M Face unit :=
  loop_call_soon_threadsafe Face_removeRegisteredPrefix
    [VInt registeredPrefixId].

(** ThreadsafeFace.setInterestFilter *)
Definition setInterestFilter (filterOrPrefix onInterest : Arg) : M Face Z :=
  interestFilterId <- getNextEntryId ;;
  loop_call_soon_threadsafe SetInterestFilterHelper
    [VInt interestFilterId; VArg filterOrPrefix; VArg onInterest] ;;;
  ret interestFilterId.

(** ThreadsafeFace.unsetInterestFilter *)
Definition unsetInterestFilter (interestFilterId : Z) : M Face unit :=
  loop_call_soon_threadsafe Face_unsetInterestFilter [VInt interestFilterId].

(** ThreadsafeFace.putData *)
Definition putData (data wireFormat : Arg) : M Face unit :=
  loop_call_soon_threadsafe Face_putData [VArg data; VArg wireFormat].

(** ThreadsafeFace.send *)
Definition send (encoding : Arg) : M Face unit :=
  loop_call_soon_threadsafe Face_send [VArg encoding].

(** ThreadsafeFace.shutdown. Its first statement is the comparison
    [self._loop == None], whose value is dropped. *)
Definition shutdown : M Face unit :=
  gets (fun s => is_None (_loop s)) ;;;
  on_base Face_shutdown.

(** ThreadsafeFace.stopWhen *)
Definition stopWhen (test : option Test) : M Face unit :=
  modify (set_stopWhenTest test).

(** ThreadsafeFace.callLater, with the quotient taken exactly. *)
Definition callLater (delayMilliseconds : Q) (callback : Arg) : M Face unit :=
  loop_call_later (delayMilliseconds / 1000)%Q (Given callback).

(** ThreadsafeFace._stopWhenCallback; [stop] is the local variable. *)
Definition _stopWhenCallback : M Face unit :=
  r <- gets _loop ;;
  if negb (is_None r) then
    with_local false
      (try_finally
         (test <- outer (gets _stopWhenTest) ;;
          match test with
          | None => ret tt
          | Some t =>
              b <- outer (on_base (call_test t)) ;;
              if (b : bool) then
                set_local true ;;;
                outer loop_stop
              else ret tt
          end)
         (stop <- get_local ;;
          if negb stop then
            outer (loop_call_later (1 # 2) StopWhenCallback)
          else ret tt))
  else ret tt.

(** ThreadsafeFace._processEventsCallback *)
Definition _processEventsCallback : M Face unit :=
  r <- gets _loop ;;
  if negb (is_None r) then
    try_finally
      (on_base Face_processEvents)
      (loop_call_later (1 # 100) ProcessEventsCallback)
  else ret tt.

(** The call that re-arms [_stopWhenCallback], and the one that re-arms
    [_processEventsCallback]. *)
Definition rearm_stopWhen : Handle :=
  mkHandle (call_later (1 # 2)) StopWhenCallback [].
Definition rearm_processEvents : Handle :=
  mkHandle (call_later (1 # 100)) ProcessEventsCallback [].

(** *** Sequences of calls on a face *)

(** The methods of a constructed face and the two callbacks that the loop
    runs. *)
Inductive FaceOp : Type :=
| DoExpressInterest (interestOrName arg2 arg3 arg4 arg5 : Arg)
| DoRemovePendingInterest (pendingInterestId : Z)
| DoRegisterPrefix (prefix onInterest onRegisterFailed flags wireFormat : Arg)
| DoRemoveRegisteredPrefix (registeredPrefixId : Z)
| DoSetInterestFilter (filterOrPrefix onInterest : Arg)
| DoUnsetInterestFilter (interestFilterId : Z)
| DoPutData (data wireFormat : Arg)
| DoSend (encoding : Arg)
| DoShutdown
| DoStopWhen (test : option Test)
| DoCallLater (delayMilliseconds : Q) (callback : Arg)
| DoStopWhenCallback
| DoProcessEventsCallback.

(** The state a call leaves, whether it returns or raises. *)
Definition face_exec (op : FaceOp) (s : Face) : Face :=
  match op with
  | DoExpressInterest a1 a2 a3 a4 a5 => fst (expressInterest a1 a2 a3 a4 a5 s)
  | DoRemovePendingInterest id => fst (removePendingInterest id s)
  | DoRegisterPrefix a1 a2 a3 a4 a5 => fst (registerPrefix a1 a2 a3 a4 a5 s)
  | DoRemoveRegisteredPrefix id => fst (removeRegisteredPrefix id s)
  | DoSetInterestFilter a1 a2 => fst (setInterestFilter a1 a2 s)
  | DoUnsetInterestFilter id => fst (unsetInterestFilter id s)
  | DoPutData a1 a2 => fst (putData a1 a2 s)
  | DoSend a => fst (send a s)
  | DoShutdown => fst (shutdown s)
  | DoStopWhen t => fst (stopWhen t s)
  | DoCallLater d cb => fst (callLater d cb s)
  | DoStopWhenCallback => fst (_stopWhenCallback s)
  | DoProcessEventsCallback => fst (_processEventsCallback s)
  end.

Definition face_run (ops : list FaceOp) (s : Face) : Face :=
  foldl (fun s op => face_exec op s) s ops.

End Face.

(** ** The face on a concrete base

    The base keeps a list of the calls made on it. A test is a number: test
    0 returns False, test 1 returns True, and test [n + 2] raises. *)

#[export] Instance demo_face_types : FaceTypes := {|
  Base := list string;
  Test := nat;
  Arg := nat
|}.

Definition demo_call_test (t : nat) (b : list string)
    : list string * outcome bool :=
  match t with
  | O => (b ++ ["test"%string], Returns false)
  | S O => (b ++ ["test"%string], Returns true)
  | S (S n) => (b ++ ["test"%string], Raises (OtherError n))
  end.

#[export] Instance demo_base : BaseOps := {|
  Face_init := fun _ _ b => (b ++ ["__init__"%string], Returns tt);
  Face_shutdown := fun b => (b ++ ["shutdown"%string], Returns tt);
  Face_processEvents := fun b => (b ++ ["processEvents"%string], Returns tt);
  call_test := demo_call_test
|}.

(** A face as its constructor leaves it. *)
Definition demo_face : Face :=
  fst (__init__ PyLoop 0%nat 0%nat
         (mkFace PyNone None 0 (mkLoop [] false) [])).


(** A face whose constructor was given None for the loop. *)
Definition demo_face_no_loop : Face :=
  fst (__init__ PyNone 0%nat 0%nat
         (mkFace PyNone None 0 (mkLoop [] false) [])).

End ThreadsafeFace.

(** ** Stepping through a computation *)

Module Steps.

Lemma bind_returns {S A B} (c : M S A) (k : A -> M S B) s s' a :
  c s = (s', Returns a) -> bind c k s = k a s'.
Proof. intros H. unfold bind. by rewrite H. Qed.

Lemma bind_raises {S A B} (c : M S A) (k : A -> M S B) s s' e :
  c s = (s', Raises e) -> bind c k s = (s', Raises e).
Proof. intros H. unfold bind. by rewrite H. Qed.

End Steps.

(** ** Properties of the pending interest table *)

Module TableProperties.

Import Steps PendingInterestTable.

Section Properties.

Context `{Ty : Types} `{IOps : !InterestOps} `{COps : !CallbackOps}.

(** *** Lemmas on the heap *)

Lemma lookup_marks R h p :
  marks R h !! p = if decide (p ∈ R) then mark <$> h !! p else h !! p.
Proof.
  induction R as [|x R IH]; [done|].
  change (marks (x :: R) h) with (alter mark x (marks R h)).
  - destruct (decide (x = p)) as [->|Hne].
    + rewrite (decide_True (P := p ∈ p :: R)) by left.
      rewrite lookup_alter_eq, IH.
      case_decide; [|done].
      by destruct (h !! p).
    + rewrite lookup_alter_ne, IH by done.
      destruct (decide (p ∈ x :: R)) as [H1|H1];
        destruct (decide (p ∈ R)) as [H2|H2];
        try done.
      * apply elem_of_cons in H1 as [H1|H1]; congruence.
      * exfalso. apply H1, elem_of_cons. by right.
Qed.

Lemma matchesb_alter h name x p :
  matchesb (alter mark x h) name p = matchesb h name p.
Proof.
  unfold matchesb. destruct (decide (x = p)) as [->|Hne].
  - rewrite lookup_alter_eq. by destruct (h !! p).
  - by rewrite lookup_alter_ne.
Qed.

Lemma has_id_alter h id x p :
  has_id (alter mark x h) id p = has_id h id p.
Proof.
  unfold has_id. destruct (decide (x = p)) as [->|Hne].
  - rewrite lookup_alter_eq. by destruct (h !! p).
  - by rewrite lookup_alter_ne.
Qed.

Lemma is_Some_alter (h : gmap ref Entry) x p :
  is_Some (alter mark x h !! p) <-> is_Some (h !! p).
Proof.
  destruct (decide (x = p)) as [->|Hne].
  - rewrite lookup_alter_eq. by rewrite fmap_is_Some.
  - by rewrite lookup_alter_ne.
Qed.

(** *** Stepping through the table's methods *)

Lemma field_at {A} (f : Entry -> A) p m e :
  heap m !! p = Some e -> field f p m = (m, Returns (f e)).
Proof. intros H. unfold field. by rewrite H. Qed.

Lemma table_get_at pre x suf h lg w :
  table_get (length pre) (mkMachine h (pre ++ x :: suf) lg w) =
  (mkMachine h (pre ++ x :: suf) lg w, Returns x).
Proof.
  unfold table_get. cbn [_table]. by rewrite list_lookup_middle.
Qed.

Lemma delete_middle (pre : list ref) x suf :
  delete (length pre) (pre ++ x :: suf) = pre ++ suf.
Proof. induction pre as [|y pre IH]; [done|]. simpl. by f_equal. Qed.

Lemma table_pop_at pre x suf h lg w :
  table_pop (length pre) (mkMachine h (pre ++ x :: suf) lg w) =
  (mkMachine h (pre ++ suf) lg w, Returns tt).
Proof.
  unfold table_pop. cbn [_table]. rewrite list_lookup_middle by done.
  unfold set_table. cbn. by rewrite delete_middle.
Qed.

(** *** The two loops *)

Lemma extract_loop_spec name pre : forall suf h lg w out,
  (forall p, p ∈ pre -> is_Some (h !! p)) ->
  extract_loop name (length pre) out (mkMachine h (pre ++ suf) lg w) =
  (mkMachine (marks (List.filter (matchesb h name) pre) h)
     (List.filter (fun p => negb (matchesb h name p)) pre ++ suf) lg w,
   Returns (out ++ reverse (List.filter (matchesb h name) pre))).
Proof.
  induction pre as [|x pre IH] using rev_ind; intros suf h lg w out Hal.
  - simpl. by rewrite app_nil_r.
  - rewrite length_app, Nat.add_1_r. 
    assert (Hx : is_Some (h !! x)) by (apply Hal; set_solver).
    destruct Hx as [e He].
    rewrite !List.filter_app. simpl List.filter.
    unfold matchesb at 2 4 6. rewrite He.
    cbn [extract_loop]. rewrite <- (app_assoc pre [x] suf). simpl app.
    erewrite bind_returns by apply table_get_at.
    erewrite bind_returns by (apply field_at; cbn; exact He).
    cbn [_interest].
    destruct (matchesName (_interest e) name) eqn:Hm.
    + erewrite bind_returns by apply table_pop_at.
      erewrite bind_returns by reflexivity.
      unfold set_heap; cbn [heap _table logged world].
      rewrite IH.
      2:{ intros p Hp. apply is_Some_alter, Hal. set_solver. }
      rewrite (List.filter_ext _ (matchesb h name))
        by (intros; apply matchesb_alter).
      rewrite (List.filter_ext (fun p => negb (matchesb (alter mark x h) name p))
                 (fun p => negb (matchesb h name p)))
        by (intros; by rewrite matchesb_alter).
      cbn [negb]. rewrite app_nil_r, reverse_app, <- app_assoc.
      unfold marks. rewrite foldr_app. done.
    + rewrite IH by (intros p Hp; apply Hal; set_solver).
      cbn [negb]. rewrite <- app_assoc, app_nil_r. done.
Qed.

Lemma remove_loop_spec id pre : forall suf h lg w count,
  (forall p, p ∈ pre -> is_Some (h !! p)) ->
  remove_loop id (length pre) count (mkMachine h (pre ++ suf) lg w) =
  (mkMachine (marks (List.filter (has_id h id) pre) h)
     (List.filter (fun p => negb (has_id h id p)) pre ++ suf) lg w,
   Returns (count + Z.of_nat (length (List.filter (has_id h id) pre)))).
Proof.
  induction pre as [|x pre IH] using rev_ind; intros suf h lg w count Hal.
  - simpl. by rewrite Z.add_0_r.
  - rewrite length_app, Nat.add_1_r.
    assert (Hx : is_Some (h !! x)) by (apply Hal; set_solver).
    destruct Hx as [e He].
    rewrite !List.filter_app. simpl List.filter.
    unfold has_id at 2 4 6. rewrite He.
    cbn [remove_loop]. rewrite <- (app_assoc pre [x] suf). simpl app.
    erewrite bind_returns by apply table_get_at.
    erewrite bind_returns by (apply field_at; cbn; exact He).
    cbn [_pendingInterestId].
    destruct (Z.eqb (_pendingInterestId e) id) eqn:Hm.
    + erewrite bind_returns by apply table_get_at.
      erewrite bind_returns by reflexivity.
      unfold set_heap; cbn [heap _table logged world].
      erewrite bind_returns by apply table_pop_at.
      rewrite IH.
      2:{ intros p Hp. apply is_Some_alter, Hal. set_solver. }
      rewrite (List.filter_ext _ (has_id h id))
        by (intros; apply has_id_alter).
      rewrite (List.filter_ext (fun p => negb (has_id (alter mark x h) id p))
                 (fun p => negb (has_id h id p)))
        by (intros; by rewrite has_id_alter).
      cbn [negb]. rewrite app_nil_r, length_app.
      unfold marks. rewrite foldr_app. simpl.
      do 2 f_equal. lia.
    + rewrite IH by (intros p Hp; apply Hal; set_solver).
      cbn [negb]. rewrite <- app_assoc, !app_nil_r. done.
Qed.

(** *** The operations as functions of the state *)

Lemma machine_eta m :
  mkMachine (heap m) (_table m) (logged m) (world m) = m.
Proof. by destruct m. Qed.

Lemma extract_spec name out m :
  allocated m ->
  extractEntriesForExpressedInterest name out m =
  (mkMachine (marks (List.filter (matchesb (heap m) name) (_table m)) (heap m))
     (List.filter (fun p => negb (matchesb (heap m) name p)) (_table m))
     (logged m) (world m),
   Returns (out ++ reverse (List.filter (matchesb (heap m) name) (_table m)))).
Proof.
  intros Hal. unfold extractEntriesForExpressedInterest.
  erewrite bind_returns by reflexivity.
  destruct m as [h t lg w]. cbn [heap _table logged world] in *.
  rewrite <- (app_nil_r t) at 2.
  rewrite extract_loop_spec by exact Hal.
  by rewrite app_nil_r.
Qed.

Lemma remove_loop_all id m :
  allocated m ->
  remove_loop id (length (_table m)) 0 m =
  (mkMachine (marks (List.filter (has_id (heap m) id) (_table m)) (heap m))
     (List.filter (fun p => negb (has_id (heap m) id p)) (_table m))
     (logged m) (world m),
   Returns (Z.of_nat (length (List.filter (has_id (heap m) id) (_table m))))).
Proof.
  intros Hal.
  destruct m as [h t lg w]. cbn [heap _table logged world] in *.
  rewrite <- (app_nil_r t) at 2.
  rewrite remove_loop_spec by exact Hal.
  by rewrite app_nil_r.
Qed.

Lemma filter_none {A} (f : A -> bool) (l : list A) :
  List.filter f l = [] -> List.filter (fun x => negb (f x)) l = l.
Proof.
  induction l as [|x l IH]; [done|]. simpl.
  destruct (f x); [done|]. intros H. simpl. f_equal. by apply IH.
Qed.

Lemma removePendingInterest_found id m :
  allocated m ->
  List.filter (has_id (heap m) id) (_table m) <> [] ->
  removePendingInterest id m =
  (mkMachine (marks (List.filter (has_id (heap m) id) (_table m)) (heap m))
     (List.filter (fun p => negb (has_id (heap m) id p)) (_table m))
     (logged m) (world m),
   Returns tt).
Proof.
  intros Hal Hne. unfold removePendingInterest.
  erewrite bind_returns by reflexivity.
  erewrite bind_returns by (by apply remove_loop_all).
  destruct (List.filter (has_id (heap m) id) (_table m)); [done|].
  done.
Qed.

Lemma removePendingInterest_absent id m :
  allocated m ->
  List.filter (has_id (heap m) id) (_table m) = [] ->
  removePendingInterest id m = (m, Raises TypeError).
Proof.
  intros Hal He. unfold removePendingInterest.
  erewrite bind_returns by reflexivity.
  erewrite bind_returns by (by apply remove_loop_all).
  rewrite He, filter_none by done. cbn.
  by rewrite machine_eta.
Qed.

Lemma index_of_None x l : index_of x l = None <-> x ∉ l.
Proof.
  induction l as [|y l IH]; simpl.
  - split; [intros _; apply not_elem_of_nil | done].
  - destruct (decide (y = x)) as [->|Hne].
    + split; [done|]. intros H. exfalso. apply H. left.
    + rewrite fmap_None, IH, not_elem_of_cons.
      split; [intros H; split; [congruence|done] | by intros [_ H]].
Qed.

Lemma index_of_Some x l i :
  index_of x l = Some i ->
  exists pre suf, l = pre ++ x :: suf /\ i = length pre /\ x ∉ pre.
Proof.
  revert i. induction l as [|y l IH]; intros i; simpl; [done|].
  destruct (decide (y = x)) as [->|Hne].
  - intros [= <-]. exists [], l. split_and!; [done..|apply not_elem_of_nil].
  - destruct (index_of x l) as [j|] eqn:Hj; [|done].
    intros [= <-]. destruct (IH j eq_refl) as (pre & suf & -> & -> & Hn).
    exists (y :: pre), suf. split_and!; [done..|].
    apply not_elem_of_cons. done.
Qed.

Lemma removeEntry_marked p m e :
  heap m !! p = Some e -> _isRemoved e = true ->
  removeEntry p m = (m, Returns false).
Proof.
  intros He Hr. unfold removeEntry, getIsRemoved.
  erewrite bind_returns by (by apply field_at).
  by rewrite Hr.
Qed.

Lemma removeEntry_not_in_table p m e :
  heap m !! p = Some e -> p ∉ _table m ->
  removeEntry p m = (m, Returns false).
Proof.
  intros He Hn. destruct (_isRemoved e) eqn:Hr.
  { by eapply removeEntry_marked. }
  unfold removeEntry, getIsRemoved.
  erewrite bind_returns by (by apply field_at).
  rewrite Hr.
  apply index_of_None in Hn.
  erewrite bind_returns.
  2:{ unfold try_except, bind, table_index. by rewrite Hn. }
  done.
Qed.

Lemma removeEntry_in_table p h pre suf lg w e :
  h !! p = Some e -> _isRemoved e = false -> p ∉ pre ->
  removeEntry p (mkMachine h (pre ++ p :: suf) lg w) =
  (mkMachine (alter mark p h) (pre ++ suf) lg w, Returns true).
Proof.
  intros He Hr Hn. unfold removeEntry, getIsRemoved.
  erewrite bind_returns by (by apply field_at).
  rewrite Hr.
  assert (Hi : index_of p (pre ++ p :: suf) = Some (length pre)).
  { clear -Hn. induction pre as [|y pre IH]; simpl.
    - by rewrite decide_True.
    - apply not_elem_of_cons in Hn as [Hne Hn].
      rewrite decide_False by done. by rewrite IH. }
  erewrite bind_returns.
  2:{ unfold try_except, bind, table_index. cbn [_table]. by rewrite Hi. }
  cbv beta iota.
  erewrite bind_returns by reflexivity.
  unfold set_heap. cbn [heap _table logged world].
  erewrite bind_returns by apply table_pop_at.
  done.
Qed.

(** *** Lists filtered by a boolean test *)

Lemma elem_of_lfilter {A} (f : A -> bool) (l : list A) x :
  x ∈ List.filter f l <-> x ∈ l /\ f x = true.
Proof. rewrite !list_elem_of_In. apply List.filter_In. Qed.

Lemma NoDup_lfilter {A} (f : A -> bool) (l : list A) :
  NoDup l -> NoDup (List.filter f l).
Proof.
  induction 1 as [|x l Hx Hl IH]; simpl; [constructor|].
  destruct (f x); [|done].
  constructor; [|done]. rewrite elem_of_lfilter. tauto.
Qed.

Lemma lfilter_split {A} (f : A -> bool) (l : list A) x :
  x ∈ l <->
  x ∈ List.filter (fun y => negb (f y)) l \/ x ∈ List.filter f l.
Proof.
  rewrite !elem_of_lfilter. destruct (f x); simpl; intuition congruence.
Qed.

(** *** The invariant *)

Lemma Inv_allocated m : Inv m -> allocated m.
Proof.
  intros (_ & Hin & _) p Hp. specialize (Hin p Hp).
  unfold isRemoved in Hin. by destruct (heap m !! p).
Qed.

Lemma Inv_initial w : Inv (initial w).
Proof.
  split_and!; cbn.
  - constructor.
  - intros p Hp. by apply elem_of_nil in Hp.
  - intros p [e He]. by rewrite lookup_empty in He.
Qed.

(** Taking the entries [R] out of the table and marking them keeps the
    invariant. *)
Lemma Inv_remove m R t' lg :
  Inv m -> NoDup t' ->
  (forall p, p ∈ _table m <-> p ∈ t' \/ p ∈ R) ->
  (forall p, p ∈ t' -> p ∉ R) ->
  Inv (mkMachine (marks R (heap m)) t' lg (world m)).
Proof.
  intros (Hnd & Hin & Hout) Hnd' Hsplit Hdisj.
  split_and!; cbn [_table]; [done| |].
  - intros p Hp. unfold isRemoved. cbn [heap].
    rewrite lookup_marks, decide_False by by apply Hdisj.
    apply Hin, Hsplit. by left.
  - intros p Hs Hp. unfold isRemoved in *. cbn [heap] in *.
    rewrite lookup_marks in *.
    destruct (decide (p ∈ R)) as [HR|HR].
    + apply fmap_is_Some in Hs as [e He]. by rewrite He.
    + apply Hout; [done|]. rewrite Hsplit. tauto.
Qed.

Lemma Inv_add id i d t m : Inv m -> Inv (fst (add id i d t m)).
Proof.
  intros HI. pose proof (Inv_allocated m HI) as Hal.
  destruct HI as (Hnd & Hin & Hout).
  set (p := fresh (dom (heap m))).
  assert (Hp : heap m !! p = None).
  { apply not_elem_of_dom. apply is_fresh. }
  assert (Hpt : p ∉ _table m).
  { intros H. apply Hal in H as [e He]. congruence. }
  unfold add. fold p. cbn [fst].
  split_and!; cbn [_table]; unfold isRemoved; cbn [heap].
  - apply NoDup_app. split_and!; [done| |apply NoDup_singleton].
    intros q Hq Hq'. apply list_elem_of_singleton in Hq' as ->. done.
  - intros q Hq. apply elem_of_app in Hq as [Hq|Hq].
    + rewrite lookup_insert_ne by (intros ->; done). by apply Hin.
    + apply list_elem_of_singleton in Hq as ->.
      by rewrite lookup_insert_eq.
  - intros q Hs Hq. apply not_elem_of_app in Hq as [Hq Hq'].
    apply not_elem_of_cons in Hq' as [Hne _].
    rewrite lookup_insert_ne in * by done. by apply Hout.
Qed.

Lemma Inv_extract name out m :
  Inv m -> Inv (fst (extractEntriesForExpressedInterest name out m)).
Proof.
  intros HI. rewrite extract_spec by by apply Inv_allocated.
  cbn [fst]. apply Inv_remove; [done|..].
  - apply NoDup_lfilter, HI.
  - apply lfilter_split.
  - intros p. rewrite !elem_of_lfilter. intros [_ H1] [_ H2].
    rewrite H2 in H1. done.
Qed.

Lemma Inv_removePendingInterest id m :
  Inv m -> Inv (fst (removePendingInterest id m)).
Proof.
  intros HI. pose proof (Inv_allocated m HI) as Hal.
  destruct (List.filter (has_id (heap m) id) (_table m)) eqn:Hf.
  - by rewrite removePendingInterest_absent.
  - rewrite removePendingInterest_found by (by rewrite ?Hf).
    cbn [fst]. apply Inv_remove; [done|..].
    + apply NoDup_lfilter, HI.
    + apply lfilter_split.
    + intros p. rewrite !elem_of_lfilter. intros [_ H1] [_ H2].
      rewrite H2 in H1. done.
Qed.

Lemma Inv_removeEntry p m : Inv m -> Inv (fst (removeEntry p m)).
Proof.
  intros HI.
  destruct (heap m !! p) as [e|] eqn:He.
  2:{ unfold removeEntry, getIsRemoved.
      erewrite bind_raises; [done|]. unfold field. by rewrite He. }
  destruct (decide (p ∈ _table m)) as [Hp|Hp].
  2:{ by erewrite removeEntry_not_in_table. }
  destruct (index_of p (_table m)) as [i|] eqn:Hi.
  2:{ by apply index_of_None in Hi. }
  apply index_of_Some in Hi as (pre & suf & Ht & -> & Hn).
  pose proof HI as (Hnd & Hin & _).
  specialize (Hin p Hp). unfold isRemoved in Hin. rewrite He in Hin.
  injection Hin as Hr.
  destruct m as [h t lg w]. cbn [heap _table] in *. subst t.
  erewrite removeEntry_in_table by done. cbn [fst].
  apply (Inv_remove _ [p] (pre ++ suf) lg) in HI; [done|..].
  - apply NoDup_app in Hnd as (H1 & H2 & H3).
    apply NoDup_cons in H3 as [H3 H4].
    apply NoDup_app. split_and!; [done| |done].
    intros q Hq Hq'. apply (H2 q Hq). by right.
  - intros q. cbn [_table]. rewrite !elem_of_app, elem_of_cons.
    rewrite list_elem_of_singleton. tauto.
  - intros q Hq Hq'. apply list_elem_of_singleton in Hq' as ->.
    apply NoDup_app in Hnd as (H1 & H2 & H3).
    apply NoDup_cons in H3 as [H3 H4].
    apply elem_of_app in Hq as [Hq|Hq]; [|done].
    apply (H2 p Hq). left.
Qed.

Lemma Inv_exec op m : Inv m -> Inv (exec op m).
Proof.
  destruct op; simpl.
  - apply Inv_add.
  - apply Inv_extract.
  - apply Inv_removePendingInterest.
  - apply Inv_removeEntry.
Qed.

Lemma Inv_run ops : forall m, Inv m -> Inv (run ops m).
Proof.
  induction ops as [|op ops IH]; intros m Hm; [done|].
  simpl. apply IH. by apply Inv_exec.
Qed.

(** *** Marked entries stay marked *)

Lemma isRemoved_marks R m t lg w p :
  isRemoved m p = Some true ->
  isRemoved (mkMachine (marks R (heap m)) t lg w) p = Some true.
Proof.
  unfold isRemoved. cbn [heap]. intros H.
  rewrite lookup_marks. destruct (decide (p ∈ R)); [|done].
  destruct (heap m !! p); [done|discriminate].
Qed.

Lemma marked_exec op m p :
  Inv m -> isRemoved m p = Some true -> isRemoved (exec op m) p = Some true.
Proof.
  intros HI Hp. pose proof (Inv_allocated m HI) as Hal.
  destruct op as [id i d t|name out|id|q]; simpl.
  - unfold add, isRemoved in *. cbn [fst heap].
    rewrite lookup_insert_ne; [done|].
    intros <-. pose proof (is_fresh (dom (heap m))) as Hf.
    apply not_elem_of_dom in Hf. rewrite Hf in Hp. discriminate.
  - rewrite extract_spec by done. cbn [fst].
    by apply isRemoved_marks.
  - destruct (List.filter (has_id (heap m) id) (_table m)) eqn:Hf.
    + by rewrite removePendingInterest_absent.
    + rewrite removePendingInterest_found by (by rewrite ?Hf).
      cbn [fst]. by apply isRemoved_marks.
  - destruct (heap m !! q) as [e|] eqn:He.
    2:{ unfold removeEntry, getIsRemoved.
        erewrite bind_raises; [done|]. unfold field. by rewrite He. }
    destruct (decide (q ∈ _table m)) as [Hq|Hq].
    2:{ by erewrite removeEntry_not_in_table. }
    destruct (index_of q (_table m)) as [i|] eqn:Hi.
    2:{ by apply index_of_None in Hi. }
    apply index_of_Some in Hi as (pre & suf & Ht & -> & Hn).
    pose proof HI as (_ & Hin & _).
    specialize (Hin q Hq). unfold isRemoved in Hin. rewrite He in Hin.
    injection Hin as Hr.
    destruct m as [h t lg w]. cbn [heap _table] in *. subst t.
    erewrite removeEntry_in_table by done. cbn [fst].
    by apply (isRemoved_marks [q] (mkMachine h (pre ++ q :: suf) lg w)).
Qed.

Lemma marked_run ops : forall m p,
  Inv m -> isRemoved m p = Some true -> isRemoved (run ops m) p = Some true.
Proof.
  induction ops as [|op ops IH]; intros m p HI Hp; [done|].
  simpl. apply IH; [by apply Inv_exec | by apply marked_exec].
Qed.

Lemma removeEntry_false_forever m p :
  Inv m -> isRemoved m p = Some true ->
  forall ops, removeEntry p (run ops m) = (run ops m, Returns false).
Proof.
  intros HI Hp ops. pose proof (marked_run ops m p HI Hp) as H.
  unfold isRemoved in H.
  destruct (heap (run ops m) !! p) as [e|] eqn:He; [|done].
  injection H as H. by eapply removeEntry_marked.
Qed.

(** What [removeEntry] does to an entry of the heap, in a state that has
    the invariant. *)
Lemma removeEntry_spec m p :
  Inv m -> is_Some (heap m !! p) ->
  exists m',
    removeEntry p m = (m', Returns (bool_decide (p ∈ _table m))) /\
    Inv m' /\ (p ∉ _table m') /\ isRemoved m' p = Some true /\
    (p ∈ _table m -> length (_table m) = S (length (_table m'))) /\
    (p ∉ _table m -> m' = m).
Proof.
  intros HI [e He].
  destruct (decide (p ∈ _table m)) as [Hp|Hp].
  - rewrite bool_decide_eq_true_2 by done.
    destruct (index_of p (_table m)) as [i|] eqn:Hi.
    2:{ by apply index_of_None in Hi. }
    apply index_of_Some in Hi as (pre & suf & Ht & -> & Hn).
    pose proof HI as (Hnd & Hin & _).
    specialize (Hin p Hp). unfold isRemoved in Hin. rewrite He in Hin.
    injection Hin as Hr.
    pose proof (Inv_removeEntry p m HI) as HI'.
    destruct m as [h t lg w]. cbn [heap _table] in *. subst t.
    erewrite removeEntry_in_table in * by done. cbn [fst] in HI'.
    eexists. split; [done|]. split; [done|].
    cbn [_table]. split_and!.
    + apply NoDup_app in Hnd as (H1 & H2 & H3).
      apply NoDup_cons in H3 as [H3 H4].
      intros [H|H]%elem_of_app; [|done]. done.
    + unfold isRemoved. cbn [heap]. by rewrite lookup_alter_eq, He.
    + intros _. rewrite !length_app. simpl. lia.
    + done.
  - rewrite bool_decide_eq_false_2 by done.
    exists m. split; [by eapply removeEntry_not_in_table|].
    split; [done|]. split; [done|]. split; [|done].
    destruct HI as (_ & _ & Hout). apply Hout; [by eexists|done].
Qed.

(** *** States reached by [add] calls alone *)

Lemma run_app ops1 ops2 m : run (ops1 ++ ops2) m = run ops2 (run ops1 m).
Proof. unfold run. by rewrite foldl_app. Qed.

Lemma run_adds_snoc calls c m :
  run_adds (calls ++ [c]) m = exec (op_of_add c) (run_adds calls m).
Proof. unfold run_adds. by rewrite map_app, run_app. Qed.

Lemma Inv_run_adds w calls : Inv (run_adds calls (initial w)).
Proof. apply Inv_run, Inv_initial. Qed.

(** After a sequence of [add] calls the table lists one entry per call, in
    the order of the calls, each holding the arguments of its call. *)
Lemma table_after_adds w calls :
  Forall2 (fun p c => heap (run_adds calls (initial w)) !! p = Some (entry_of c))
    (_table (run_adds calls (initial w))) calls.
Proof.
  induction calls as [|c calls IH] using rev_ind; [constructor|].
  rewrite run_adds_snoc.
  pose proof (Inv_allocated _ (Inv_run_adds w calls)) as Hal.
  set (m := run_adds calls (initial w)) in *.
  destruct c as [[[id i] d] t]. cbn [op_of_add exec add fst heap _table].
  apply Forall2_app.
  - eapply Forall2_impl; [exact IH|].
    intros p c Hp. cbn beta in *.
    rewrite lookup_insert_ne; [done|].
    intros <-. pose proof (is_fresh (dom (heap m))) as Hf.
    apply not_elem_of_dom in Hf. congruence.
  - constructor; [|constructor]. by rewrite lookup_insert_eq.
Qed.

(** *** Properties of the table *)

(** When some entry of the table has the id, [removePendingInterest]
    returns, every entry with the id has left the table and is marked, and
    the others stay in their order. *)
Lemma removePendingInterest_removes_all w ops id :
  let m := run ops (initial w) in
  let hit := List.filter (has_id (heap m) id) (_table m) in
  hit <> [] ->
  exists m',
    removePendingInterest id m = (m', Returns tt) /\
    _table m' = List.filter (fun p => negb (has_id (heap m) id p)) (_table m) /\
    logged m' = logged m /\
    forall p, p ∈ hit -> isRemoved m' p = Some true /\ p ∉ _table m'.
Proof.
  intros m hit Hne.
  assert (HI : Inv m) by apply Inv_run, Inv_initial.
  eexists. split; [by apply removePendingInterest_found, Hne; apply Inv_allocated|].
  cbn [_table logged]. split_and!; [done..|].
  intros p Hp. split.
  - unfold isRemoved. cbn [heap]. rewrite lookup_marks, decide_True by done.
    apply elem_of_lfilter in Hp as [Hp _].
    apply Inv_allocated in Hp as [e He]; [|done]. by rewrite He.
  - rewrite elem_of_lfilter. apply elem_of_lfilter in Hp as [_ ->].
    by intros [_ ?].
Qed.

(** On a table without entries [removePendingInterest] raises
    [TypeError], from adding the integer id to the text of the message. *)
Lemma removePendingInterest_new_table_raises w id :
  removePendingInterest id (initial w) = (initial w, Raises TypeError).
Proof. reflexivity. Qed.

(** C2, at an id that no entry has: in every state that the table reaches,
    [removePendingInterest] with an id that no entry of the table has
    raises [TypeError] to its caller, from adding the integer id to the
    text of the message; nothing is logged and the state is as it was. *)
Theorem removePendingInterest_absent_raises w ops id :
  let m := run ops (initial w) in
  List.filter (has_id (heap m) id) (_table m) = [] ->
  removePendingInterest id m = (m, Raises TypeError).
Proof.
  intros m Hf. apply removePendingInterest_absent; [|done].
  apply Inv_allocated, Inv_run, Inv_initial.
Qed.

(** C3: after any sequence of [add] calls,
    [extractEntriesForExpressedInterest] returns, having appended to [out]
    the entries whose interest matches the name, each once, the one added
    last first; these have left the table and are marked removed, and the
    table keeps the other entries in their order. *)
Theorem extract_after_adds w calls name out :
  let m := run_adds calls (initial w) in
  let hit := List.filter (matchesb (heap m) name) (_table m) in
  let miss := List.filter (fun p => negb (matchesb (heap m) name p)) (_table m) in
  Forall2 (fun p c => heap m !! p = Some (entry_of c)) (_table m) calls /\
  NoDup hit /\
  exists m',
    extractEntriesForExpressedInterest name out m =
      (m', Returns (out ++ reverse hit)) /\
    _table m' = miss /\
    (forall p, p ∈ hit -> isRemoved m' p = Some true /\ p ∉ _table m') /\
    (forall p, p ∈ miss -> isRemoved m' p = Some false).
Proof.
  intros m hit miss.
  assert (HI : Inv m) by apply Inv_run_adds.
  pose proof (Inv_allocated m HI) as Hal.
  split; [apply table_after_adds|].
  split; [apply NoDup_lfilter, HI|].
  eexists. split; [by apply extract_spec|].
  cbn [_table]. split; [done|]. split.
  - intros p Hp. split.
    + unfold isRemoved. cbn [heap].
      rewrite lookup_marks, decide_True by done.
      apply elem_of_lfilter in Hp as [Hp _].
      apply Hal in Hp as [e He]. by rewrite He.
    + rewrite elem_of_lfilter. apply elem_of_lfilter in Hp as [_ ->].
      by intros [_ ?].
  - intros p Hp. unfold isRemoved. cbn [heap].
    apply elem_of_lfilter in Hp as [Hp Hm].
    rewrite lookup_marks, decide_False.
    + destruct HI as (_ & Hin & _). by apply Hin.
    + rewrite elem_of_lfilter. intros [_ H]. rewrite H in Hm. done.
Qed.

(** C4: in every state the table reaches, [removeEntry] on an entry that
    [add] created returns True when the entry is in the table and False
    when it is not; after the call the entry is out of the table and
    marked, and every later call returns False, whatever operations come
    in between. An entry that an extraction or [removePendingInterest]
    took out gets False as well. *)
Theorem removeEntry_true_exactly_once w ops p :
  let m := run ops (initial w) in
  is_Some (heap m !! p) ->
  (exists m',
     removeEntry p m = (m', Returns (bool_decide (p ∈ _table m))) /\
     (p ∉ _table m') /\ isRemoved m' p = Some true /\
     (p ∈ _table m -> length (_table m) = S (length (_table m'))) /\
     (p ∉ _table m -> m' = m) /\
     forall ops', removeEntry p (run ops' m') = (run ops' m', Returns false)) /\
  (forall name out ops',
     matchesb (heap m) name p = true ->
     let m1 := run ops' (exec (OpExtract name out) m) in
     removeEntry p m1 = (m1, Returns false)) /\
  (forall id ops',
     has_id (heap m) id p = true ->
     let m1 := run ops' (exec (OpRemovePendingInterest id) m) in
     removeEntry p m1 = (m1, Returns false)).
Proof.
  intros m Hp.
  assert (HI : Inv m) by apply Inv_run, Inv_initial.
  pose proof (Inv_allocated m HI) as Hal.
  split_and!.
  - destruct (removeEntry_spec m p HI Hp) as (m' & H1 & H2 & H3 & H4 & H5 & H6).
    exists m'. split_and!; try done.
    by apply removeEntry_false_forever.
  - intros name out ops' Hm m1.
    assert (Hr : isRemoved (exec (OpExtract name out) m) p = Some true).
    { destruct (decide (p ∈ _table m)) as [Ht|Ht].
      - simpl. rewrite extract_spec by done. unfold isRemoved. cbn [fst heap].
        rewrite lookup_marks, decide_True.
        + destruct Hp as [e ->]. done.
        + by apply elem_of_lfilter.
      - apply marked_exec; [done|]. destruct HI as (_ & _ & Hout).
        by apply Hout. }
    apply removeEntry_false_forever; [by apply Inv_exec|done].
  - intros id ops' Hm m1.
    assert (Hr : isRemoved (exec (OpRemovePendingInterest id) m) p = Some true).
    { destruct (decide (p ∈ _table m)) as [Ht|Ht].
      - simpl. rewrite removePendingInterest_found; [|done|].
        + unfold isRemoved. cbn [fst heap].
          rewrite lookup_marks, decide_True.
          * destruct Hp as [e ->]. done.
          * by apply elem_of_lfilter.
        + intros Hf. assert (H : p ∈ List.filter (has_id (heap m) id) (_table m))
            by by apply elem_of_lfilter.
          rewrite Hf in H. by apply elem_of_nil in H.
      - apply marked_exec; [done|]. destruct HI as (_ & _ & Hout).
        by apply Hout. }
    apply removeEntry_false_forever; [by apply Inv_exec|done].
Qed.

(** C5: [callTimeout] on an entry without [onTimeout] does nothing; with
    one it calls it with the entry's interest, and what the call raises is
    logged and not raised further: [callTimeout] returns in every case.
    When the call raises, the state is the one the call left with one
    record added at the end of the log, the exception under the message
    "Error in onTimeout"; otherwise nothing is logged. *)
Theorem callTimeout_never_raises p m e :
  heap m !! p = Some e ->
  snd (callTimeout p m) = Returns tt /\
  match _onTimeout e with
  | None => callTimeout p m = (m, Returns tt)
  | Some f =>
      match call f (_interest e) m with
      | (m', Returns _) => callTimeout p m = (m', Returns tt)
      | (m', Raises x) =>
          callTimeout p m =
          (mkMachine (heap m') (_table m')
             (logged m' ++ [LogException "Error in onTimeout"%string x])
             (world m'),
           Returns tt) /\
          logged (fst (callTimeout p m)) =
          logged m' ++ [LogException "Error in onTimeout"%string x]
      end
  end.
Proof.
  intros He. unfold callTimeout.
  erewrite bind_returns by (by apply field_at).
  destruct (_onTimeout e) as [f|]; [|done].
  unfold try_except.
  erewrite bind_returns by (by apply field_at).
  destruct (call f (_interest e) m) as [m' [[]|x]]; done.
Qed.

(** C6: every state that the four operations reach from the new table has
    the invariant: the entries in the table are not marked removed, the
    entries no longer in it are; and after an extraction the entries it
    appended are marked and those that stay in the table are not. *)
Theorem table_invariant w ops :
  let m := run ops (initial w) in
  Inv m /\
  (forall op, Inv (exec op m)) /\
  forall name out,
    let r := extractEntriesForExpressedInterest name out m in
    exists ext,
      snd r = Returns (out ++ ext) /\
      (forall p, p ∈ ext -> isRemoved (fst r) p = Some true) /\
      (forall p, p ∈ _table (fst r) -> isRemoved (fst r) p = Some false).
Proof.
  intros m.
  assert (HI : Inv m) by apply Inv_run, Inv_initial.
  pose proof (Inv_allocated m HI) as Hal.
  split; [done|]. split; [intros op; by apply Inv_exec|].
  intros name out r.
  pose proof (Inv_extract name out m HI) as HI'. fold r in HI'.
  subst r. rewrite extract_spec in * by done. cbn [fst snd] in *.
  eexists. split; [done|]. split.
  - intros p Hp. rewrite elem_of_reverse in Hp.
    unfold isRemoved. cbn [heap].
    rewrite lookup_marks, decide_True by done.
    apply elem_of_lfilter in Hp as [Hp _].
    apply Hal in Hp as [e He]. by rewrite He.
  - apply HI'.
Qed.

(** C9: [extractEntriesForExpressedInterest] keeps what the caller's list
    holds, each element at its place, and puts the extracted entries after
    it. *)
Theorem extract_appends name out m :
  allocated m ->
  exists ext,
    snd (extractEntriesForExpressedInterest name out m) = Returns (out ++ ext) /\
    ext = reverse (List.filter (matchesb (heap m) name) (_table m)) /\
    forall i x, out !! i = Some x -> (out ++ ext) !! i = Some x.
Proof.
  intros Hal. rewrite extract_spec by done. cbn [snd].
  eexists. split; [done|]. split; [done|].
  intros i x Hi. by apply lookup_app_l_Some.
Qed.

(** C10 as amended: [callTimeout] itself changes neither an entry nor the
    table: the heap and the table it leaves are those that the call of
    [onTimeout]
    leaves (those before the call when there is no [onTimeout]), whether
    the call returns or raises. So they are unchanged when the function
    called does not touch them; and [add] neither marks an entry nor takes
    one out of the table. *)
Theorem callTimeout_frame p m e :
  heap m !! p = Some e ->
  let after :=
    match _onTimeout e with
    | Some f => fst (call f (_interest e) m)
    | None => m
    end in
  let m' := fst (callTimeout p m) in
  (heap m' = heap after /\ _table m' = _table after) /\
  (heap after = heap m -> _table after = _table m ->
   heap m' = heap m /\ _table m' = _table m /\
   isRemoved m' p = isRemoved m p /\
   (forall q, q ∈ _table m <-> q ∈ _table m')) /\
  (forall id i d t,
     let m2 := fst (add id i d t m) in
     (forall q, is_Some (heap m !! q) -> isRemoved m2 q = isRemoved m q) /\
     (forall q, q ∈ _table m -> q ∈ _table m2)).
Proof.
  intros He after m'.
  assert (H : heap m' = heap after /\ _table m' = _table after).
  { subst m' after. unfold callTimeout.
    erewrite bind_returns by (by apply field_at).
    destruct (_onTimeout e) as [f|]; [|done].
    unfold try_except.
    erewrite bind_returns by (by apply field_at).
    destruct (call f (_interest e) m) as [m1 [[]|x]]; done. }
  split; [done|]. destruct H as [Hh Ht]. split.
  - intros H1 H2. unfold isRemoved. rewrite Hh, Ht, H1, H2. done.
  - intros id i d t m2. split.
    + intros q [eq Hq]. unfold isRemoved. subst m2. cbn [add fst heap].
      rewrite lookup_insert_ne; [done|].
      intros <-. pose proof (is_fresh (dom (heap m))) as Hf.
      apply not_elem_of_dom in Hf. congruence.
    + intros q Hq. subst m2. cbn [add fst _table].
      apply elem_of_app. by left.
Qed.

(** *** Further properties of the table *)

Lemma matchesb_marks R h name p :
  matchesb (marks R h) name p = matchesb h name p.
Proof.
  unfold matchesb. rewrite lookup_marks.
  destruct (decide (p ∈ R)); [|done]. by destruct (h !! p).
Qed.

Lemma lfilter_none_of {A} (f g : A -> bool) (l : list A) :
  (forall x, g x = true -> f x = false) ->
  List.filter g (List.filter f l) = [].
Proof.
  intros Hfg. induction l as [|x l IH]; [done|]. simpl.
  destruct (f x) eqn:Hf; [|done]. simpl.
  destruct (g x) eqn:Hg; [|done]. apply Hfg in Hg. congruence.
Qed.

Lemma lfilter_all_of {A} (f g : A -> bool) (l : list A) :
  (forall x, f x = true -> g x = true) ->
  List.filter g (List.filter f l) = List.filter f l.
Proof.
  intros Hfg. induction l as [|x l IH]; [done|]. simpl.
  destruct (f x) eqn:Hf; [|done]. simpl.
  rewrite (Hfg x Hf). by f_equal.
Qed.

Lemma lfilter_Permutation {A} (f : A -> bool) (l : list A) :
  l ≡ₚ List.filter (fun x => negb (f x)) l ++ List.filter f l.
Proof.
  induction l as [|x l IH]; [done|]. simpl.
  destruct (f x); simpl.
  - rewrite <- Permutation_middle. by constructor.
  - by constructor.
Qed.

Lemma fresh_not_in_table m :
  allocated m -> fresh (dom (heap m)) ∉ _table m.
Proof.
  intros Hal Hin. apply Hal in Hin as [e He].
  pose proof (is_fresh (dom (heap m))) as Hf.
  apply not_elem_of_dom in Hf. congruence.
Qed.

(** [add] creates a new object, puts it last in the table, and the
    getters give back what was passed in: the id, the interest, [onData],
    and False for the isRemoved flag. The objects that were there are as
    before. Ids are not compared: an id that is in use is accepted. *)
Theorem add_then_getters id i d t m :
  exists p m',
    add id i d t m = (m', Returns p) /\
    heap m !! p = None /\
    _table m' = _table m ++ [p] /\
    getPendingInterestId p m' = (m', Returns id) /\
    getInterest p m' = (m', Returns i) /\
    getOnData p m' = (m', Returns d) /\
    getIsRemoved p m' = (m', Returns false) /\
    (forall q, q <> p -> heap m' !! q = heap m !! q) /\
    logged m' = logged m /\ world m' = world m.
Proof.
  eexists _, _. split; [reflexivity|].
  assert (Hf : heap m !! fresh (dom (heap m)) = None).
  { apply not_elem_of_dom, is_fresh. }
  split; [done|]. split; [done|].
  unfold getPendingInterestId, getInterest, getOnData, getIsRemoved, field.
  cbn [heap _table logged world]. rewrite lookup_insert_eq.
  split_and!; try done.
  intros q Hq. by rewrite lookup_insert_ne.
Qed.

(** In every state the table reaches, [removeEntry] on the entry that
    [add] has just returned gives True and leaves the table as it was
    before the [add]; the entry stays behind as a marked object. *)
Theorem add_then_removeEntry w ops id i d t :
  let m := run ops (initial w) in
  exists p m1 m2,
    add id i d t m = (m1, Returns p) /\
    removeEntry p m1 = (m2, Returns true) /\
    _table m2 = _table m /\
    isRemoved m2 p = Some true /\
    logged m2 = logged m /\ world m2 = world m.
Proof.
  intros m.
  assert (HI : Inv m) by apply Inv_run, Inv_initial.
  pose proof (fresh_not_in_table m (Inv_allocated m HI)) as Hp.
  eexists _, _, _. split; [reflexivity|].
  split.
  - eapply (removeEntry_in_table _ _ (_table m) []).
    + by rewrite lookup_insert_eq.
    + done.
    + done.
  - cbn [_table logged world]. rewrite app_nil_r.
    split_and!; try done.
    unfold isRemoved. cbn [heap]. by rewrite lookup_alter_eq, lookup_insert_eq.
Qed.

(** A second extraction for the same name, right after the first, appends
    nothing and changes nothing. *)
Theorem extract_twice w ops name out out' :
  let m := run ops (initial w) in
  let m1 := fst (extractEntriesForExpressedInterest name out m) in
  extractEntriesForExpressedInterest name out' m1 = (m1, Returns out').
Proof.
  intros m m1.
  assert (HI : Inv m) by apply Inv_run, Inv_initial.
  assert (HI1 : Inv m1) by by apply Inv_extract.
  rewrite (extract_spec name out' m1) by by apply Inv_allocated.
  subst m1. rewrite extract_spec by by apply Inv_allocated.
  cbn [fst heap _table logged world].
  rewrite (List.filter_ext (matchesb (marks _ (heap m)) name) (matchesb (heap m) name))
    by (intros; apply matchesb_marks).
  rewrite (List.filter_ext (fun p => negb (matchesb (marks _ (heap m)) name p))
             (fun p => negb (matchesb (heap m) name p)))
    by (intros; by rewrite matchesb_marks).
  rewrite lfilter_none_of by (intros x Hx; by rewrite Hx).
  rewrite lfilter_all_of by done.
  rewrite app_nil_r. reflexivity.
Qed.

(** An extraction loses no entry and doubles none: the table before it is
    a rearrangement of the table after it and the entries appended. The
    objects of the entries that stay, the log and the world are as
    before. *)
Theorem extract_partition w ops name out :
  let m := run ops (initial w) in
  let r := extractEntriesForExpressedInterest name out m in
  exists ext,
    snd r = Returns (out ++ ext) /\
    _table m ≡ₚ _table (fst r) ++ ext /\
    length (_table m) = (length (_table (fst r)) + length ext)%nat /\
    (forall q, q ∉ ext -> heap (fst r) !! q = heap m !! q) /\
    logged (fst r) = logged m /\ world (fst r) = world m.
Proof.
  intros m r.
  assert (HI : Inv m) by apply Inv_run, Inv_initial.
  subst r. rewrite extract_spec by by apply Inv_allocated.
  cbn [fst snd heap _table logged world].
  eexists. split; [reflexivity|].
  assert (HP : _table m ≡ₚ
            List.filter (fun p => negb (matchesb (heap m) name p)) (_table m) ++
            reverse (List.filter (matchesb (heap m) name) (_table m))).
  { rewrite reverse_Permutation. apply lfilter_Permutation. }
  split; [exact HP|]. split.
  - rewrite <- length_app. by apply Permutation_length.
  - split_and!; try done.
    intros q Hq. rewrite elem_of_reverse in Hq.
    by rewrite lookup_marks, decide_False.
Qed.

Lemma has_id_marks R h id p : has_id (marks R h) id p = has_id h id p.
Proof.
  unfold has_id. rewrite lookup_marks.
  destruct (decide (p ∈ R)); [|done]. by destruct (h !! p).
Qed.

(** [removePendingInterest] does not touch an entry with another id,
    whether or not an entry has the id, and whether it returns or raises:
    such an entry keeps its object and its place relative to the others.
    The world of the callbacks is not touched either. *)
Theorem removePendingInterest_other_ids w ops id :
  let m := run ops (initial w) in
  let m' := fst (removePendingInterest id m) in
  _table m' = List.filter (fun p => negb (has_id (heap m) id p)) (_table m) /\
  (forall q, has_id (heap m) id q = false ->
     heap m' !! q = heap m !! q /\ (q ∈ _table m <-> q ∈ _table m')) /\
  world m' = world m.
Proof.
  intros m m'.
  assert (HI : Inv m) by apply Inv_run, Inv_initial.
  pose proof (Inv_allocated m HI) as Hal.
  destruct (List.filter (has_id (heap m) id) (_table m)) as [|x l] eqn:Hf.
  - subst m'. rewrite removePendingInterest_absent by done. cbn [fst].
    rewrite filter_none by done. split_and!; try done.
  - subst m'. rewrite removePendingInterest_found by (by rewrite ?Hf).
    cbn [fst _table heap world]. split_and!; try done.
    intros q Hq. split.
    + rewrite lookup_marks, decide_False; [done|].
      rewrite elem_of_lfilter. intros [_ H]. congruence.
    + rewrite elem_of_lfilter, Hq. simpl. tauto.
Qed.

(** In every state the table reaches, [removePendingInterest] with the id
    of an entry that [add] has just created returns, and takes out and
    marks that entry together with every older entry of the same id. *)
Theorem add_then_removePendingInterest w ops id i d t :
  let m := run ops (initial w) in
  exists p m1 m2,
    add id i d t m = (m1, Returns p) /\
    removePendingInterest id m1 = (m2, Returns tt) /\
    _table m2 = List.filter (fun q => negb (has_id (heap m) id q)) (_table m) /\
    isRemoved m2 p = Some true /\
    logged m2 = logged m.
Proof.
  intros m.
  assert (HI : Inv m) by apply Inv_run, Inv_initial.
  pose proof (Inv_allocated m HI) as Hal.
  pose proof (fresh_not_in_table m Hal) as Hp.
  set (p := fresh (dom (heap m))) in *.
  set (e := mkEntry id i d t false).
  set (m1 := mkMachine (<[p := e]> (heap m)) (_table m ++ [p]) (logged m)
               (world m)).
  assert (HI1 : Inv m1) by apply (Inv_add id i d t m HI).
  assert (Ht1 : _table m1 = _table m ++ [p]) by reflexivity.
  assert (Hh1 : heap m1 = <[p := e]> (heap m)) by reflexivity.
  assert (Hpid : has_id (heap m1) id p = true).
  { unfold has_id. rewrite Hh1, lookup_insert_eq. cbn. apply Z.eqb_refl. }
  assert (Hold : forall q, q ∈ _table m ->
            has_id (heap m1) id q = has_id (heap m) id q).
  { intros q Hq. unfold has_id. rewrite Hh1.
    rewrite lookup_insert_ne; [done|]. intros <-. done. }
  assert (Hext : forall (f g : ref -> bool) l,
            (forall q, q ∈ l -> f q = g q) -> List.filter f l = List.filter g l).
  { intros f g l. induction l as [|x l IH]; intros H; [done|]. simpl.
    rewrite (H x) by left. rewrite IH; [done|]. intros q Hq. apply H. by right. }
  assert (Hhit : List.filter (has_id (heap m1) id) (_table m1) =
                 List.filter (has_id (heap m) id) (_table m) ++ [p]).
  { rewrite Ht1, List.filter_app. cbn [List.filter]. rewrite Hpid. f_equal.
    apply Hext. intros q Hq. by rewrite Hold. }
  assert (Hmiss : List.filter (fun q => negb (has_id (heap m1) id q)) (_table m1) =
                  List.filter (fun q => negb (has_id (heap m) id q)) (_table m)).
  { rewrite Ht1, List.filter_app. cbn [List.filter]. rewrite Hpid.
    cbn [negb]. rewrite app_nil_r. apply Hext. intros q Hq. by rewrite Hold. }
  exists p, m1. eexists. split; [reflexivity|].
  split.
  - apply removePendingInterest_found; [by apply Inv_allocated|].
    rewrite Hhit. intros H. by apply app_eq_nil in H as [_ ?].
  - cbn [_table logged]. split_and!.
    + exact Hmiss.
    + unfold isRemoved. cbn [heap]. rewrite lookup_marks, decide_True.
      * by rewrite Hh1, lookup_insert_eq.
      * rewrite Hhit. apply elem_of_app. right. by left.
    + done.
Qed.

(** [removeEntry] on an entry of the table takes out that entry alone: the
    entries before it and after it keep their order, and every other
    object, the log and the world are as before. *)
Theorem removeEntry_takes_one w ops p :
  let m := run ops (initial w) in
  p ∈ _table m ->
  exists pre suf m',
    _table m = pre ++ p :: suf /\
    removeEntry p m = (m', Returns true) /\
    _table m' = pre ++ suf /\
    (forall q, q <> p -> heap m' !! q = heap m !! q) /\
    isRemoved m' p = Some true /\
    logged m' = logged m /\ world m' = world m.
Proof.
  intros m Hp.
  assert (HI : Inv m) by apply Inv_run, Inv_initial.
  destruct (index_of p (_table m)) as [i|] eqn:Hi.
  2:{ by apply index_of_None in Hi. }
  apply index_of_Some in Hi as (pre & suf & Ht & -> & Hn).
  pose proof HI as (_ & Hin & _).
  specialize (Hin p Hp). unfold isRemoved in Hin.
  destruct (heap m !! p) as [e|] eqn:He; [|done]. injection Hin as Hr.
  exists pre, suf,
    (mkMachine (alter mark p (heap m)) (pre ++ suf) (logged m) (world m)).
  split; [done|].
  generalize dependent m. intros [h tb lg wd]. cbn [heap _table logged world].
  intros _ _ -> He.
  split; [by eapply removeEntry_in_table|].
  cbn [heap _table logged world]. split_and!; try done.
  - intros q Hq. by rewrite lookup_alter_ne.
  - unfold isRemoved. cbn [heap]. by rewrite lookup_alter_eq, He.
Qed.

(** [setIsRemoved] sets the flag that [getIsRemoved] returns and nothing
    else: the id, the interest and the callbacks of the entry, the other
    objects and the table are as before; a second call changes nothing. *)
Theorem setIsRemoved_then_getIsRemoved p m e :
  heap m !! p = Some e ->
  let m' := fst (setIsRemoved p m) in
  getIsRemoved p m' = (m', Returns true) /\
  heap m' !! p =
    Some (mkEntry (_pendingInterestId e) (_interest e) (_onData e)
            (_onTimeout e) true) /\
  (forall q, q <> p -> heap m' !! q = heap m !! q) /\
  _table m' = _table m /\
  fst (setIsRemoved p m') = m'.
Proof.
  intros He m'. subst m'. unfold setIsRemoved, modify, set_heap.
  cbn [fst heap _table logged world].
  assert (H1 : alter mark p (heap m) !! p = Some (mark e))
    by by rewrite lookup_alter_eq, He.
  split_and!.
  - unfold getIsRemoved, field. cbn [heap]. by rewrite H1.
  - exact H1.
  - intros q Hq. by rewrite lookup_alter_ne.
  - done.
  - f_equal. apply map_eq. intros q.
    destruct (decide (p = q)) as [->|Hne].
    + rewrite lookup_alter_eq, H1. done.
    + by rewrite !lookup_alter_ne.
Qed.

End Properties.

(** *** On the concrete interests *)

Example demo_table : _table demo_machine = [0; 1; 2]%nat.
Proof. reflexivity. Qed.

(** Extracting for /a/b/d gives the third entry, then the first, and leaves
    the second in the table. *)
Example demo_extract :
  let r := extractEntriesForExpressedInterest
             ["a"; "b"; "d"]%string [] demo_machine in
  snd r = Returns [2; 0]%nat /\ _table (fst r) = [1]%nat /\
  snd (extractEntriesForExpressedInterest
         ["a"; "b"; "d"]%string [] (fst r)) = Returns [].
Proof. vm_compute. done. Qed.

(** An id of some entry: [removePendingInterest] returns. *)
Example demo_removePendingInterest_found :
  let r := removePendingInterest 2 demo_machine in
  snd r = Returns tt /\ _table (fst r) = [0; 2]%nat /\
  isRemoved (fst r) 1%nat = Some true.
Proof. vm_compute. done. Qed.

(** The first [removeEntry] on an entry returns True and shortens the
    table by one, the second returns False and leaves the table. *)
Example demo_removeEntry_twice :
  let r1 := removeEntry 1%nat demo_machine in
  let r2 := removeEntry 1%nat (fst r1) in
  snd r1 = Returns true /\ _table (fst r1) = [0; 2]%nat /\
  snd r2 = Returns false /\ _table (fst r2) = [0; 2]%nat.
Proof. vm_compute. done. Qed.

Lemma removePendingInterest_absent_raises_witness :
  List.filter (has_id (heap demo_machine) 9) (_table demo_machine) = [] /\
  removePendingInterest 9 demo_machine = (demo_machine, Raises TypeError).
Proof.
  assert (H : List.filter (has_id (heap demo_machine) 9) (_table demo_machine)
              = []) by (vm_compute; reflexivity).
  split; [exact H|].
  exact (removePendingInterest_absent_raises (Ty := demo_types) [] demo_ops 9 H).
Defined.

Lemma demo_allocated : allocated demo_machine.
Proof.
  intros p Hp. rewrite demo_table in Hp.
  repeat (apply elem_of_cons in Hp as [->|Hp]); try (vm_compute; eauto).
  by apply elem_of_nil in Hp.
Qed.

Lemma removeEntry_true_exactly_once_witness :
  is_Some (heap demo_machine !! 0%nat) /\
  exists m' : Machine,
    removeEntry 0%nat demo_machine = (m', Returns true) /\
    length (_table m') = 2%nat /\
    removeEntry 0%nat m' = (m', Returns false).
Proof.
  assert (H : is_Some (heap demo_machine !! 0%nat)) by (vm_compute; eauto).
  split; [exact H|].
  destruct (removeEntry_true_exactly_once (Ty := demo_types) [] demo_ops 0%nat H)
    as [(m' & H1 & _ & _ & H2 & _ & H3) _].
  exists m'. split; [exact H1|]. split.
  - match type of H2 with
    | _ ∈ ?t -> _ =>
        assert (Ht : t = [0; 1; 2]%nat) by reflexivity; rewrite Ht in H2
    end.
    assert (Hin : 0%nat ∈ [0; 1; 2]%nat) by left.
    specialize (H2 Hin). simpl in H2. injection H2 as H2. exact (eq_sym H2).
  - exact (H3 []).
Defined.

Lemma callTimeout_never_raises_witness :
  heap demo_machine !! 2%nat = Some demo_entry3 /\
  snd (callTimeout 2%nat demo_machine) = Returns tt /\
  logged demo_machine = [] /\
  logged (fst (callTimeout 2%nat demo_machine)) =
    [LogException "Error in onTimeout"%string (OtherError 3)] /\
  world (fst (callTimeout 2%nat demo_machine)) =
    [(3%nat, ["a"; "b"; "d"]%string)].
Proof.
  assert (H : heap demo_machine !! 2%nat = Some demo_entry3)
    by (vm_compute; reflexivity).
  split; [exact H|].
  destruct (callTimeout_never_raises (Ty := demo_types) 2%nat demo_machine _ H)
    as [H1 H2].
  split; [exact H1|]. split; [reflexivity|].
  split; [exact (proj2 H2)|]. reflexivity.
Defined.

Lemma extract_appends_witness :
  allocated demo_machine /\
  snd (extractEntriesForExpressedInterest ["a"; "c"]%string
         [2; 0]%nat demo_machine) = Returns ([2; 0] ++ [1])%nat.
Proof.
  split; [exact demo_allocated|].
  destruct (extract_appends (Ty := demo_types) ["a"; "c"]%string [2; 0]%nat
              demo_machine demo_allocated) as (ext & H1 & H2 & _).
  rewrite H1, H2. reflexivity.
Defined.

Lemma callTimeout_frame_witness :
  heap demo_machine !! 2%nat = Some demo_entry3 /\
  heap (fst (callTimeout 2%nat demo_machine)) = heap demo_machine /\
  _table (fst (callTimeout 2%nat demo_machine)) =
    _table demo_machine /\
  isRemoved (fst (callTimeout 2%nat demo_machine)) 2%nat =
    Some false.
Proof.
  assert (H : heap demo_machine !! 2%nat = Some demo_entry3)
    by (vm_compute; reflexivity).
  split; [exact H|].
  destruct (callTimeout_frame (Ty := demo_types) 2%nat demo_machine _ H)
    as (_ & Hframe & _).
  destruct (Hframe eq_refl eq_refl) as (H1 & H2 & H3 & _).
  split; [exact H1|]. split; [exact H2|].
  rewrite H3. vm_compute. reflexivity.
Defined.

Lemma removeEntry_takes_one_witness :
  1%nat ∈ _table demo_machine /\
  exists pre suf m',
    _table demo_machine = pre ++ 1%nat :: suf /\
    removeEntry 1%nat demo_machine = (m', Returns true) /\
    _table m' = pre ++ suf.
Proof.
  assert (H : 1%nat ∈ _table demo_machine)
    by (rewrite demo_table; right; left).
  split; [exact H|].
  destruct (removeEntry_takes_one (Ty := demo_types) [] demo_ops 1%nat H)
    as (pre & suf & m' & H1 & H2 & H3 & _).
  exists pre, suf, m'. exact (conj H1 (conj H2 H3)).
Defined.

Lemma setIsRemoved_then_getIsRemoved_witness :
  heap demo_machine !! 2%nat = Some demo_entry3 /\
  snd (getIsRemoved 2%nat demo_machine) = Returns false /\
  snd (getIsRemoved 2%nat (fst (setIsRemoved 2%nat demo_machine))) =
    Returns true.
Proof.
  assert (H : heap demo_machine !! 2%nat = Some demo_entry3)
    by (vm_compute; reflexivity).
  split; [exact H|]. split; [vm_compute; reflexivity|].
  destruct (setIsRemoved_then_getIsRemoved (Ty := demo_types) 2%nat
              demo_machine _ H) as (H1 & _).
  by rewrite H1.
Defined.

Lemma removePendingInterest_removes_all_witness :
  List.filter (has_id (heap demo_machine) 2) (_table demo_machine) <> [] /\
  exists m' : Machine,
    removePendingInterest 2 demo_machine = (m', Returns tt) /\
    _table m' = [0; 2]%nat.
Proof.
  assert (H : List.filter (has_id (heap demo_machine) 2) (_table demo_machine)
              <> []) by (vm_compute; discriminate).
  split; [exact H|].
  destruct (removePendingInterest_removes_all (Ty := demo_types) [] demo_ops 2 H)
    as (m' & H1 & H2 & _).
  exists m'. split; [exact H1|]. rewrite H2. vm_compute. reflexivity.
Defined.

(** C10 as it is written fails when [onTimeout] calls back into the
    table. With an [onTimeout] that cancels the pending interest of its
    own entry, [callTimeout] leaves the entry marked removed and out of
    the table; with one that expresses the interest again, it leaves the
    table one entry longer. *)
Lemma callTimeout_callback_changes_table :
  heap demo_machine !! 1%nat = Some demo_entry2 /\
  isRemoved demo_machine 1%nat = Some false /\
  _table demo_machine = [0; 1; 2]%nat /\
  isRemoved
    (fst (callTimeout (COps := demo_callback_reentrant) 1%nat demo_machine))
    1%nat = Some true /\
  _table
    (fst (callTimeout (COps := demo_callback_reentrant) 1%nat demo_machine))
  = [0; 2]%nat /\
  _table
    (fst (callTimeout (COps := demo_callback_reentrant) 2%nat demo_machine))
  = [0; 1; 2; 3]%nat.
Proof. vm_compute. split_and!; reflexivity. Qed.

End TableProperties.

(** ** Properties of the threadsafe face *)

Module FaceProperties.

Import Steps ThreadsafeFace.

Section Properties.

Context `{FTy : FaceTypes} `{BOps : !BaseOps}.

Lemma on_loop_active (m : Loop -> Loop) s :
  _loop s = PyLoop -> on_loop m s = (set_loop (m (loop s)) s, Returns tt).
Proof. intros H. unfold on_loop. by rewrite H. Qed.

Lemma shutdown_loop_ref s : _loop (fst (shutdown s)) = _loop s.
Proof.
  unfold shutdown, bind, gets, on_base.
  by destruct (Face_shutdown (base s)) as [b o].
Qed.

Lemma shutdown_loop s : loop (fst (shutdown s)) = loop s.
Proof.
  unfold shutdown, bind, gets, on_base.
  by destruct (Face_shutdown (base s)) as [b o].
Qed.

Lemma shutdown_stopWhenTest s :
  _stopWhenTest (fst (shutdown s)) = _stopWhenTest s.
Proof.
  unfold shutdown, bind, gets, on_base.
  by destruct (Face_shutdown (base s)) as [b o].
Qed.

(** Were [self._loop] None, neither service would do anything. *)
Lemma inactive_tick s :
  _loop s = PyNone ->
  _stopWhenCallback s = (s, Returns tt) /\
  _processEventsCallback s = (s, Returns tt).
Proof.
  intros H. unfold _stopWhenCallback, _processEventsCallback, bind, gets.
  by rewrite H.
Qed.

(** A tick of [_processEventsCallback] on an active face: it runs
    [processEvents], re-arms itself, and hands on what [processEvents]
    raised, if it raised. *)
Lemma processEventsCallback_tick s :
  _loop s = PyLoop ->
  match Face_processEvents (base s) with
  | (b, o) =>
      _processEventsCallback s =
      (set_loop (register rearm_processEvents (loop s)) (set_base b s), o)
  end.
Proof.
  intros H. unfold _processEventsCallback, bind, gets. rewrite H. cbn [is_None negb].
  unfold try_finally, on_base.
  destruct (Face_processEvents (base s)) as [b o].
  unfold loop_call_later. by rewrite on_loop_active.
Qed.

(** What a tick of [_stopWhenCallback] does on an active face. *)
Lemma stopWhenCallback_cases s :
  _loop s = PyLoop ->
  match _stopWhenTest s with
  | None =>
      _stopWhenCallback s =
      (set_loop (register rearm_stopWhen (loop s)) s, Returns tt)
  | Some t =>
      match call_test t (base s) with
      | (b, Returns true) =>
          _stopWhenCallback s =
          (set_loop (mkLoop (scheduled (loop s)) true) (set_base b s),
           Returns tt)
      | (b, Returns false) =>
          _stopWhenCallback s =
          (set_loop (register rearm_stopWhen (loop s)) (set_base b s),
           Returns tt)
      | (b, Raises e) =>
          _stopWhenCallback s =
          (set_loop (register rearm_stopWhen (loop s)) (set_base b s),
           Raises e)
      end
  end.
Proof.
  destruct s as [r t n l b0]. cbn [_loop _stopWhenTest base loop].
  intros ->. unfold _stopWhenCallback.
  erewrite bind_returns by reflexivity.
  unfold with_local, try_finally, bind, outer, gets, get_local, set_local,
    on_base, loop_stop, loop_call_later, on_loop.
  destruct t as [t|]; simpl; [|done].
  destruct (call_test t b0) as [b [[|]|e]]; done.
Qed.

(** C1, on a face whose loop is set: [shutdown] leaves [self._loop] as it
    is, so the face stays active, and the next tick of
    [_processEventsCallback] registers a further call of itself, as does
    the next tick of [_stopWhenCallback] when no test is set. *)
Theorem shutdown_does_not_stop_services s :
  _loop s = PyLoop ->
  let s1 := fst (shutdown s) in
  _loop s1 = PyLoop /\
  (exists s2 o,
     _processEventsCallback s1 = (s2, o) /\
     scheduled (loop s2) = scheduled (loop s) ++ [rearm_processEvents]) /\
  (_stopWhenTest s = None ->
   exists s2,
     _stopWhenCallback s1 = (s2, Returns tt) /\
     scheduled (loop s2) = scheduled (loop s) ++ [rearm_stopWhen]).
Proof.
  intros H s1.
  assert (H1 : _loop s1 = PyLoop) by (subst s1; by rewrite shutdown_loop_ref).
  assert (Hl : loop s1 = loop s) by apply shutdown_loop.
  split; [done|]. split.
  - pose proof (processEventsCallback_tick s1 H1) as Ht.
    destruct (Face_processEvents (base s1)) as [b o].
    eexists _, _. split; [exact Ht|]. unfold set_loop, register, set_base.
    cbn [loop scheduled]. by rewrite Hl.
  - intros Hn. pose proof (stopWhenCallback_cases s1 H1) as Ht.
    subst s1. rewrite shutdown_stopWhenTest, Hn in Ht.
    eexists. split; [exact Ht|]. unfold set_loop, register, set_base.
    cbn [loop scheduled]. by rewrite Hl.
Qed.


(** C8: on a face whose loop is set, [expressInterest], [registerPrefix]
    and [setInterestFilter] each take the next id from [getNextEntryId],
    register one call of their helper with [call_soon_threadsafe], the id
    first among its arguments, and return that id; the state of the base
    class, where the tables are, is as before. *)
Theorem handle_returning_operations s a1 a2 a3 a4 a5 :
  _loop s = PyLoop ->
  let id := _lastEntryId s + 1 in
  let queued f a :=
    mkFace PyLoop (_stopWhenTest s) id
      (register (mkHandle call_soon_threadsafe f (VInt id :: a)) (loop s))
      (base s) in
  getNextEntryId s = (set_lastEntryId id s, Returns id) /\
  expressInterest a1 a2 a3 a4 a5 s =
    (queued ExpressInterestHelper [VArg a1; VArg a2; VArg a3; VArg a4; VArg a5],
     Returns id) /\
  registerPrefix a1 a2 a3 a4 a5 s =
    (queued RegisterPrefixHelper [VArg a1; VArg a2; VArg a3; VArg a4; VArg a5],
     Returns id) /\
  setInterestFilter a1 a2 s =
    (queued SetInterestFilterHelper [VArg a1; VArg a2], Returns id).
Proof.
  destruct s as [r t n l b]. cbn [_loop]. intros ->.
  split_and!; reflexivity.
Qed.

(** *** Further properties of the face *)

Lemma on_loop_ref m s : _loop (fst (on_loop m s)) = _loop s.
Proof. unfold on_loop. by destruct (_loop s) eqn:H. Qed.

Lemma on_loop_scheduled h s :
  scheduled (loop s) `prefix_of`
  scheduled (loop (fst (on_loop (register h) s))).
Proof.
  unfold on_loop. destruct (_loop s); cbn; [done|]. by apply prefix_app_r.
Qed.

Lemma stopWhenCallback_frame s :
  _loop (fst (_stopWhenCallback s)) = _loop s /\
  scheduled (loop s) `prefix_of` scheduled (loop (fst (_stopWhenCallback s))).
Proof.
  destruct (_loop s) eqn:H.
  - destruct (inactive_tick s H) as [-> _]. cbn. by split.
  - pose proof (stopWhenCallback_cases s H) as Hc.
    destruct (_stopWhenTest s) as [t|].
    + destruct (call_test t (base s)) as [b [[|]|e]]; rewrite Hc; cbn;
        (split; [done|]); try done; by apply prefix_app_r.
    + rewrite Hc. cbn. split; [done|]. by apply prefix_app_r.
Qed.

Lemma processEventsCallback_frame s :
  _loop (fst (_processEventsCallback s)) = _loop s /\
  scheduled (loop s) `prefix_of`
  scheduled (loop (fst (_processEventsCallback s))).
Proof.
  destruct (_loop s) eqn:H.
  - destruct (inactive_tick s H) as [_ ->]. cbn. by split.
  - pose proof (processEventsCallback_tick s H) as Hc.
    destruct (Face_processEvents (base s)) as [b o]. rewrite Hc. cbn.
    split; [done|]. by apply prefix_app_r.
Qed.

Lemma marshal_frame f a (k : M Face unit) s :
  k = loop_call_soon_threadsafe f a ->
  _loop (fst (k s)) = _loop s /\
  scheduled (loop s) `prefix_of` scheduled (loop (fst (k s))).
Proof.
  intros ->. unfold loop_call_soon_threadsafe.
  split; [apply on_loop_ref | apply on_loop_scheduled].
Qed.

Lemma face_exec_frame op s :
  _loop (face_exec op s) = _loop s /\
  scheduled (loop s) `prefix_of` scheduled (loop (face_exec op s)).
Proof.
  destruct op; cbn [face_exec];
    try (eapply marshal_frame; reflexivity).
  - unfold expressInterest, bind, getNextEntryId, loop_call_soon_threadsafe,
      on_loop. cbn. destruct (_loop s) eqn:H; cbn; (split; [done|]); [done|].
    by apply prefix_app_r.
  - unfold registerPrefix, bind, getNextEntryId, loop_call_soon_threadsafe,
      on_loop. cbn. destruct (_loop s) eqn:H; cbn; (split; [done|]); [done|].
    by apply prefix_app_r.
  - unfold setInterestFilter, bind, getNextEntryId, loop_call_soon_threadsafe,
      on_loop. cbn. destruct (_loop s) eqn:H; cbn; (split; [done|]); [done|].
    by apply prefix_app_r.
  - split; [apply shutdown_loop_ref | by rewrite shutdown_loop].
  - done.
  - unfold callLater, loop_call_later.
    split; [apply on_loop_ref | apply on_loop_scheduled].
  - apply stopWhenCallback_frame.
  - apply processEventsCallback_frame.
Qed.

(** No method of a constructed face and neither callback assigns
    [self._loop]: after any sequence of calls it is what it was. A face
    that is active stays active. *)
Theorem face_never_clears_loop ops s :
  _loop (face_run ops s) = _loop s.
Proof.
  revert s. induction ops as [|op ops IH]; intros s; [done|].
  change (face_run (op :: ops) s) with (face_run ops (face_exec op s)).
  rewrite IH. apply face_exec_frame.
Qed.

(** The face only adds to the calls registered with the loop, at the end:
    after any sequence of calls on the face the calls that were registered
    are still there, in their order, before the new ones. *)
Theorem face_only_appends_to_loop ops s :
  scheduled (loop s) `prefix_of` scheduled (loop (face_run ops s)).
Proof.
  revert s. induction ops as [|op ops IH]; intros s; [done|].
  change (face_run (op :: ops) s) with (face_run ops (face_exec op s)).
  etrans; [|apply IH]. apply face_exec_frame.
Qed.

(** On an active face [removePendingInterest], [removeRegisteredPrefix],
    [unsetInterestFilter], [putData] and [send] do nothing but register
    one call of the method of the base class with [call_soon_threadsafe],
    with the arguments they were given: the state of the base class is
    not touched and no id is taken. *)
Theorem marshalled_operations s id a1 a2 :
  _loop s = PyLoop ->
  let queued f a :=
    set_loop (register (mkHandle call_soon_threadsafe f a) (loop s)) s in
  removePendingInterest id s =
    (queued Face_removePendingInterest [VInt id], Returns tt) /\
  removeRegisteredPrefix id s =
    (queued Face_removeRegisteredPrefix [VInt id], Returns tt) /\
  unsetInterestFilter id s =
    (queued Face_unsetInterestFilter [VInt id], Returns tt) /\
  putData a1 a2 s = (queued Face_putData [VArg a1; VArg a2], Returns tt) /\
  send a1 s = (queued Face_send [VArg a1], Returns tt).
Proof.
  intros H queued.
  unfold removePendingInterest, removeRegisteredPrefix, unsetInterestFilter,
    putData, send, loop_call_soon_threadsafe.
  by rewrite !on_loop_active.
Qed.

(** A tick of [_processEventsCallback] on an active face calls
    [processEvents] once and registers the next tick with a delay of 0.01,
    also when [processEvents] raises; what it raises is raised on to the
    caller after the registration. *)
Theorem processEventsCallback_rearms s :
  _loop s = PyLoop ->
  exists b o,
    Face_processEvents (base s) = (b, o) /\
    _processEventsCallback s =
    (mkFace PyLoop (_stopWhenTest s) (_lastEntryId s)
       (mkLoop (scheduled (loop s) ++ [rearm_processEvents])
          (stopped (loop s)))
       b,
     o).
Proof.
  intros H. pose proof (processEventsCallback_tick s H) as Ht.
  destruct (Face_processEvents (base s)) as [b o].
  exists b, o. split; [done|]. rewrite Ht.
  unfold set_loop, set_base, register. cbn. by rewrite H.
Qed.

(** The constructor: when [Face.__init__] returns and a loop is given, the
    two services are registered with [call_soon], [_stopWhenCallback]
    first, and no test is set. When None is given for the loop the first
    registration raises [AttributeError]. When [Face.__init__] raises,
    nothing else is done. *)
Theorem init_schedules_services a1 a2 s :
  match Face_init a1 a2 (base s) with
  | (b, Returns _) =>
      __init__ PyLoop a1 a2 s =
      (mkFace PyLoop None (_lastEntryId s)
         (mkLoop (scheduled (loop s) ++
                  [mkHandle call_soon StopWhenCallback [];
                   mkHandle call_soon ProcessEventsCallback []])
            (stopped (loop s)))
         b,
       Returns tt) /\
      __init__ PyNone a1 a2 s =
      (mkFace PyNone None (_lastEntryId s) (loop s) b, Raises AttributeError)
  | (b, Raises e) =>
      forall r, __init__ r a1 a2 s = (set_base b s, Raises e)
  end.
Proof.
  unfold __init__, bind, on_base, modify, loop_call_soon, on_loop.
  destruct (Face_init a1 a2 (base s)) as [b [[]|e]]; [|done].
  cbn. unfold register. cbn. by rewrite <- app_assoc.
Qed.

(** On an active face, [removePendingInterest] with the id that
    [expressInterest] has just returned is registered right behind the
    call that will express the interest, with the same id; neither call
    has touched the state of the base class. *)
Theorem express_then_cancel s a1 a2 a3 a4 a5 :
  _loop s = PyLoop ->
  exists id s1 s2,
    expressInterest a1 a2 a3 a4 a5 s = (s1, Returns id) /\
    removePendingInterest id s1 = (s2, Returns tt) /\
    scheduled (loop s2) =
      scheduled (loop s) ++
      [mkHandle call_soon_threadsafe ExpressInterestHelper
         [VInt id; VArg a1; VArg a2; VArg a3; VArg a4; VArg a5];
       mkHandle call_soon_threadsafe Face_removePendingInterest [VInt id]] /\
    base s2 = base s.
Proof.
  destruct s as [r t n l b]. cbn [_loop]. intros ->.
  eexists _, _, _. split; [reflexivity|]. split; [reflexivity|].
  cbn. by rewrite <- app_assoc.
Qed.

(** On a face whose [self._loop] is None the two callbacks return at once:
    no test and no [processEvents] is called, nothing is registered with
    the loop, and the state is as before, whatever test is set. *)
Theorem callbacks_idle_without_loop s t :
  _loop s = PyNone ->
  _stopWhenCallback (set_stopWhenTest t s) =
    (set_stopWhenTest t s, Returns tt) /\
  _processEventsCallback s = (s, Returns tt).
Proof.
  intros H. split.
  - by apply inactive_tick.
  - by apply inactive_tick.
Qed.

End Properties.

(** *** On the concrete base *)

Example demo_face_state :
  demo_face =
  mkFace PyLoop None 0
    (mkLoop [mkHandle call_soon StopWhenCallback [];
             mkHandle call_soon ProcessEventsCallback []] false)
    ["__init__"%string].
Proof. reflexivity. Qed.

(** After [shutdown] a tick of [_processEventsCallback] still runs
    [processEvents] and registers a further call of itself. *)
Example demo_shutdown_then_tick :
  _processEventsCallback (fst (shutdown demo_face)) =
  (mkFace PyLoop None 0
     (mkLoop [mkHandle call_soon StopWhenCallback [];
              mkHandle call_soon ProcessEventsCallback [];
              rearm_processEvents] false)
     ["__init__"; "shutdown"; "processEvents"]%string,
   Returns tt).
Proof. reflexivity. Qed.

Lemma shutdown_does_not_stop_services_witness :
  _loop demo_face = PyLoop /\
  _loop (fst (shutdown demo_face)) = PyLoop /\
  exists s2 o,
    _processEventsCallback (fst (shutdown demo_face)) = (s2, o) /\
    scheduled (loop s2) = scheduled (loop demo_face) ++ [rearm_processEvents].
Proof.
  assert (H : _loop demo_face = PyLoop) by reflexivity.
  split; [exact H|].
  destruct (shutdown_does_not_stop_services demo_face H) as (H1 & H2 & _).
  split; [exact H1 | exact H2].
Defined.



Lemma handle_returning_operations_witness :
  _loop demo_face = PyLoop /\
  expressInterest 1%nat 2%nat 3%nat 4%nat 5%nat demo_face =
  (mkFace PyLoop None 1
     (mkLoop [mkHandle call_soon StopWhenCallback [];
              mkHandle call_soon ProcessEventsCallback [];
              mkHandle call_soon_threadsafe ExpressInterestHelper
                [VInt 1; VArg 1%nat; VArg 2%nat; VArg 3%nat; VArg 4%nat;
                 VArg 5%nat]] false)
     ["__init__"%string],
   Returns 1).
Proof.
  assert (H : _loop demo_face = PyLoop) by reflexivity.
  split; [exact H|].
  exact (proj1 (proj2 (handle_returning_operations (FTy := demo_face_types)
                         demo_face 1%nat 2%nat 3%nat 4%nat 5%nat H))).
Defined.

Lemma callbacks_idle_without_loop_witness :
  _loop demo_face_no_loop = PyNone /\
  _stopWhenCallback demo_face_no_loop = (demo_face_no_loop, Returns tt) /\
  _processEventsCallback demo_face_no_loop = (demo_face_no_loop, Returns tt).
Proof.
  assert (H : _loop demo_face_no_loop = PyNone) by reflexivity.
  split; [exact H|].
  exact (callbacks_idle_without_loop demo_face_no_loop None H).
Defined.

Lemma marshalled_operations_witness :
  _loop demo_face = PyLoop /\
  removePendingInterest 7 demo_face =
  (mkFace PyLoop None 0
     (mkLoop [mkHandle call_soon StopWhenCallback [];
              mkHandle call_soon ProcessEventsCallback [];
              mkHandle call_soon_threadsafe Face_removePendingInterest
                [VInt 7]] false)
     ["__init__"%string],
   Returns tt).
Proof.
  assert (H : _loop demo_face = PyLoop) by reflexivity.
  split; [exact H|].
  exact (proj1 (marshalled_operations (FTy := demo_face_types) demo_face 7
                  0%nat 0%nat H)).
Defined.

Lemma processEventsCallback_rearms_witness :
  _loop demo_face = PyLoop /\
  exists b o,
    _processEventsCallback demo_face =
    (mkFace PyLoop None 0
       (mkLoop (scheduled (loop demo_face) ++ [rearm_processEvents]) false)
       b,
     o).
Proof.
  assert (H : _loop demo_face = PyLoop) by reflexivity.
  split; [exact H|].
  destruct (processEventsCallback_rearms demo_face H) as (b & o & _ & H1).
  exists b, o. exact H1.
Defined.

Lemma express_then_cancel_witness :
  _loop demo_face = PyLoop /\
  exists s1 s2,
    expressInterest 1%nat 2%nat 3%nat 4%nat 5%nat demo_face =
      (s1, Returns 1) /\
    removePendingInterest 1 s1 = (s2, Returns tt) /\
    base s2 = base demo_face.
Proof.
  assert (H : _loop demo_face = PyLoop) by reflexivity.
  split; [exact H|].
  destruct (express_then_cancel (FTy := demo_face_types) demo_face
              1%nat 2%nat 3%nat 4%nat 5%nat H)
    as (id & s1 & s2 & H1 & H2 & _ & H3).
  assert (Hid : id = 1).
  { vm_compute in H1. by injection H1 as _ <-. }
  subst id. exists s1, s2. exact (conj H1 (conj H2 H3)).
Defined.

End FaceProperties.
